(** * codehn: the story aggregation of [main.go]

    A shallow embedding of [getStories], [getStoriesFromType] and
    [pageHandler].  Go strings are byte strings ([string]), Go [int]s are
    [Z] (no arithmetic is performed on them), slices are lists.  The
    goroutines of [getStories] are modelled by an interleaving semantics:
    one step per statement that touches shared state, driven by an
    explicit schedule.  A goroutine whose request is never answered is a
    goroutine that the schedule does not run again, and a process that
    dies in the middle of an unsynchronised [append] returns nothing: the
    statements below are about the states a run reaches and the results it
    returns, none says that a run reaches its [return]. *)

From Stdlib Require Import ZArith Lia.
From stdpp Require Import base option list strings pretty gmap.

Local Open Scope Z_scope.

(** ** The [strings] package: substring test *)

Module strings.

(** [strings.HasPrefix s prefix]. *)
Fixpoint HasPrefix (s prefix : string) : bool :=
  match prefix, s with
  | EmptyString, _ => true
  | String _ _, EmptyString => false
  | String b prefix', String a s' =>
      if Ascii.eqb a b then HasPrefix s' prefix' else false
  end.

(** [strings.Contains s substr]: [substr] occurs at some offset of [s]. *)
Fixpoint Contains (s substr : string) : bool :=
  HasPrefix s substr ||
  match s with
  | EmptyString => false
  | String _ s' => Contains s' substr
  end.

(** [strings.TrimPrefix s prefix]. *)
Definition TrimPrefix (s prefix : string) : string :=
  if HasPrefix s prefix
  then String.substring (String.length prefix)
         (String.length s - String.length prefix) s
  else s.

End strings.

(** ** Data model *)

(** [type story struct]: the nine fields of the API answer and the two
    fields filled in for the template. *)
Record story := Story {
  By : string;
  Descendants : Z;
  ID : Z;
  Kids : list Z;
  Score : Z;
  Time : Z;
  Title : string;
  Type_ : string;
  URL : string;
  DomainName : string;
  HumanTime : string
}.

(** [type stories []*story] *)
Definition stories := list story.

Definition set_HumanTime (h : string) (s : story) : story :=
  Story (By s) (Descendants s) (ID s) (Kids s) (Score s) (Time s) (Title s)
        (Type_ s) (URL s) (DomainName s) h.

Definition set_DomainName (d : string) (s : story) : story :=
  Story (By s) (Descendants s) (ID s) (Kids s) (Score s) (Time s) (Title s)
        (Type_ s) (URL s) d (HumanTime s).

(** [var baseURL] *)
Definition baseURL : string := "https://hacker-news.firebaseio.com/v0/".

(** [fmt.Sprintf(baseURL+"v0/item/%d.json", storyKey)]: [baseURL] holds no
    verb, so the result is the format string with [%d] replaced by the
    decimal digits of [storyKey]. *)
Definition keyURL (storyKey : Z) : string :=
  baseURL +:+ "v0/item/" +:+ pretty storyKey +:+ ".json".

(** The [switch] of [getStoriesFromType]. *)
Definition listURL (pageType : string) : string :=
  if String.eqb pageType "best" then baseURL +:+ "beststories.json"
  else if String.eqb pageType "new" then baseURL +:+ "newstories.json"
  else if String.eqb pageType "show" then baseURL +:+ "showstories.json"
  else baseURL +:+ "topstories.json".

(** ** The outside world

    What the program obtains from its libraries and from the network is
    gathered in one record, so that the model can be run on a concrete
    upstream. *)

Definition error := string.

(** What [ioutil.ReadAll(res.Body)] yields for a response: the bytes read
    and the error, if any. *)
Record Response := { body_data : string; body_err : option error }.

Record World := {
  (** [http.Get url]; [None] stands for [err != nil]. *)
  http_Get : string → option Response;
  (** [json.Unmarshal(body, &keys)]: the keys stored, and whether an error
      is reported. *)
  json_Unmarshal_keys : string → list Z * bool;
  (** [json.Unmarshal(body, s)] into a zero [story]; [None] stands for
      [err != nil]. *)
  json_Unmarshal_story : string → option story;
  (** [humanize.Time(time.Unix(t, 0))] at the instant of the call. *)
  humanize_Time : Z → string;
  (** [url.Parse(u)] followed by [Hostname()]; [None] when [Parse] fails. *)
  url_Hostname : string → option string;
  (** [template.ParseFiles("index.tmpl")] succeeds. *)
  template_ok : bool
}.

(** ** Eligibility and enrichment (lines 135-140) *)

Definition eligible (s : story) : bool :=
  strings.Contains (URL s) "github" || strings.Contains (URL s) "gitlab".

(** The story handed to [append], or [None] when the [if] is not taken. *)
Definition filter_enrich (W : World) (s : story) : option story :=
  if eligible s then
    let s1 := set_HumanTime (humanize_Time W (Time s)) s in
    match url_Hostname W (URL s1) with
    | Some h => Some (set_DomainName h s1)
    | None => Some s1
    end
  else None.

(** ** The result cache *)

Module cache.

(** Modelled from the spec: the package [github.com/pmylund/go-cache]
    behind [cash] is not part of the sources.  Following section 4.6, an
    entry is a value with the instant at which it expires, [Set] stores
    with the fixed time-to-live counted from the moment of [Set] and
    replaces the entry wholesale, [Get] treats an entry past its
    time-to-live as a miss, and the sweep deletes such entries.  Instants
    and durations are nanoseconds. *)
Record Item := { Object : stories; Expiration : Z }.

Record Cache := {
  defaultExpiration : Z;
  cleanupInterval : Z;
  items : gmap string Item
}.

Definition Minute : Z := 60 * 1000000000.

Definition New (ttl sweep : Z) : Cache :=
  {| defaultExpiration := ttl; cleanupInterval := sweep; items := ∅ |}.

Definition Expired (now : Z) (it : Item) : bool := Expiration it <? now.

(** [Set(k, x, cache.DefaultExpiration)] at instant [now] ([Set] is a
    keyword here). *)
Definition Set_ (c : Cache) (k : string) (x : stories) (now : Z) : Cache :=
  {| defaultExpiration := defaultExpiration c;
     cleanupInterval := cleanupInterval c;
     items := <[k := {| Object := x; Expiration := now + defaultExpiration c |}]>
                (items c) |}.

(** [Get(k)] at instant [now]; [None] stands for [found = false]. *)
Definition Get (c : Cache) (k : string) (now : Z) : option stories :=
  match items c !! k with
  | Some it => if Expired now it then None else Some (Object it)
  | None => None
  end.

(** One pass of the background sweep at instant [now]. *)
Definition DeleteExpired (c : Cache) (now : Z) : Cache :=
  {| defaultExpiration := defaultExpiration c;
     cleanupInterval := cleanupInterval c;
     items := filter (λ kv, Expired now kv.2 = false) (items c) |}.

(** The sweeps that ran at the instants [ts]. *)
Definition sweeps (c : Cache) (ts : list Z) : Cache :=
  foldl DeleteExpired c ts.

End cache.

(** [cash = cache.New(30*time.Minute, 10*time.Minute)] *)
Definition cash_init : cache.Cache :=
  cache.New (30 * cache.Minute) (10 * cache.Minute).

(** ** The goroutines of [getStories]

    Each goroutine started at line 97 is a [task]: its argument and the
    statement it is about to execute.  Statements that only touch locals
    are executed together with the next access to shared state. *)

Inductive pc : Type :=
| PAdd                          (* line 100: wg.Add(1) *)
| PAcquire                      (* line 103: semaphore <- struct{}{} *)
| PGet                          (* lines 116-120: http.Get(keyURL) *)
| PRead (res : Response)        (* lines 123-126: body, err = ReadAll *)
| PUnmarshal                    (* lines 128-140: decode body, filter *)
| PAppendLoad (s : story)       (* line 141: evaluate append(stories, s) *)
| PAppendStore (new : stories)  (* line 141: assign to stories *)
| PDone                         (* line 109: wg.Done() *)
| PRelease                      (* line 112: <-semaphore *)
| PExit.

Record task := Task { storyKey : Z; at_ : pc }.

(** The goroutine running [getStories] itself, from line 86 on. *)
Inductive orch : Type :=
| OLoop (keys : list Z)         (* line 86, keys still to range over *)
| OWait                         (* line 148: wg.Wait() *)
| OReturned (result : stories). (* line 150 *)

(** The variables shared between the goroutines. *)
Record state := State {
  st_main : orch;
  st_tasks : list task;
  st_wg : Z;
  st_semaphore : nat;
  st_body : string;
  st_stories : stories
}.

(** Capacity of [semaphore] (line 77) and the count of line 89. *)
Definition semaphore_cap : nat := 10.
Definition target : nat := 30.

Definition goto (i : nat) (k : Z) (p : pc) (st : state) : list task :=
  <[i := Task k p]> (st_tasks st).

(** One statement of goroutine [i]; [None] when it does not exist, has
    finished, or is blocked on the channel. *)
Definition task_step (W : World) (i : nat) (st : state) : option state :=
  match st_tasks st !! i with
  | None => None
  | Some (Task k p) =>
      let '(State m _ w c b ss) := st in
      match p with
      | PAdd => Some (State m (goto i k PAcquire st) (w + 1) c b ss)
      | PAcquire =>
          if decide (c < semaphore_cap)%nat
          then Some (State m (goto i k PGet st) w (S c) b ss)
          else None
      | PGet =>
          match http_Get W (keyURL k) with
          | None => Some (State m (goto i k PDone st) w c b ss)
          | Some res => Some (State m (goto i k (PRead res) st) w c b ss)
          end
      | PRead res =>
          match body_err res with
          | Some _ => Some (State m (goto i k PDone st) w c (body_data res) ss)
          | None => Some (State m (goto i k PUnmarshal st) w c (body_data res) ss)
          end
      | PUnmarshal =>
          match json_Unmarshal_story W b with
          | None => Some (State m (goto i k PDone st) w c b ss)
          | Some s =>
              match filter_enrich W s with
              | None => Some (State m (goto i k PDone st) w c b ss)
              | Some s' => Some (State m (goto i k (PAppendLoad s') st) w c b ss)
              end
          end
      | PAppendLoad s =>
          Some (State m (goto i k (PAppendStore (ss ++ [s])) st) w c b ss)
      | PAppendStore new => Some (State m (goto i k PDone st) w c b new)
      | PDone => Some (State m (goto i k PRelease st) (w - 1) c b ss)
      | PRelease =>
          match c with
          | O => None
          | S c' => Some (State m (goto i k PExit st) w c' b ss)
          end
      | PExit => None
      end
  end.

(** One iteration of the [for] loop (lines 86-145: the test of line 89 and
    the [go] statement), [wg.Wait()] or the [return]. *)
Definition main_step (st : state) : option state :=
  let '(State m ts w c b ss) := st in
  match m with
  | OLoop [] => Some (State OWait ts w c b ss)
  | OLoop (key :: keys) =>
      if decide (target ≤ length ss)%nat
      then Some (State OWait ts w c b ss)
      else Some (State (OLoop keys) (ts ++ [Task key PAdd]) w c b ss)
  | OWait =>
      if decide (w = 0) then Some (State (OReturned ss) ts w c b ss) else None
  | OReturned _ => None
  end.

(** Who runs next. *)
Inductive actor : Type := Main | Go (i : nat).

Definition exec (W : World) (a : actor) (st : state) : option state :=
  match a with
  | Main => main_step st
  | Go i => task_step W i st
  end.

Fixpoint run (W : World) (sched : list actor) (st : state) : option state :=
  match sched with
  | [] => Some st
  | a :: sched' =>
      match exec W a st with
      | Some st' => run W sched' st'
      | None => None
      end
  end.

(** The shared variables when the loop is entered: [body] holds the list
    answer, everything else is empty. *)
Definition init (data : string) (keys : list Z) : state :=
  State (OLoop keys) [] 0 0 data [].

(** [getStories(res)] under a schedule; [None] when the schedule does not
    bring the function to its [return]. *)
Definition getStories (W : World) (sched : list actor) (res : Response)
  : option (stories * option error) :=
  match body_err res with
  | Some e => Some ([], Some e)
  | None =>
      let keys := (json_Unmarshal_keys W (body_data res)).1 in
      match run W sched (init (body_data res) keys) with
      | Some st =>
          match st_main st with
          | OReturned ss => Some (ss, None)
          | _ => None
          end
      | None => None
      end
  end.

(** [getStoriesFromType(pageType)] *)
Definition getStoriesFromType (W : World) (sched : list actor) (pageType : string)
  : option (stories * option error) :=
  match http_Get W (listURL pageType) with
  | None =>
      Some ([], Some ("could not get " +:+ pageType +:+ " hacker news posts list"))
  | Some res =>
      match getStories W sched res with
      | Some (_, Some _) =>
          Some ([], Some ("could not get " +:+ pageType +:+ " hacker news posts data"))
      | Some (s, None) => Some (s, None)
      | None => None
      end
  end.

(** ** The handler *)

(** [type container struct] *)
Record container := { Page : string; Stories : stories }.

(** The calls made on the [http.ResponseWriter], in order. *)
Inductive rw_call : Type :=
| WriteHeader (code : Z)
| Write (b : string)
| Header_Set (k v : string)
| Execute (c : container).

(** [pageHandler(pageType)] serving one request: the cache is read at
    instant [t_get] and, on a miss, written at instant [t_set]. *)
Definition pageHandler (W : World) (sched : list actor) (pageType : string)
    (t_get t_set : Z) (cash : cache.Cache) : option (cache.Cache * list rw_call) :=
  let render (s : stories) (cash' : cache.Cache) :=
    if template_ok W
    then Some (cash', [WriteHeader 200;
                       Header_Set "Content-type" "text/html;charset=utf-8";
                       Execute {| Stories := s; Page := pageType |}])
    else Some (cash', [WriteHeader 500; Write "could not parse template file"]) in
  match cache.Get cash pageType t_get with
  | Some s => render s cash
  | None =>
      match getStoriesFromType W sched pageType with
      | None => None
      | Some (_, Some err) => Some (cash, [WriteHeader 500; Write err])
      | Some (s, None) => render s (cache.Set_ cash pageType s t_set)
      end
  end.

(** ** A test upstream and some schedules *)

(** A story that links to a code host, and one that does not. *)
Definition github_story (k : Z) : story :=
  Story "pg" 0 k [] 1 1160418111 ("story " +:+ pretty k) "story"
        ("https://github.com/x/" +:+ pretty k) EmptyString EmptyString.

Definition plain_story (k : Z) : story :=
  Story "pg" 0 k [] 1 1160418111 ("story " +:+ pretty k) "story"
        ("https://example.com/" +:+ pretty k) EmptyString EmptyString.

(** The part of [s] before its first slash. *)
Fixpoint until_slash (s : string) : string :=
  match s with
  | EmptyString => EmptyString
  | String a s' =>
      if Ascii.eqb a (Ascii.ascii_of_nat 47) then EmptyString
      else String a (until_slash s')
  end.

(** An upstream that answers every list request with [list_body], which
    decodes to [keys], and the item request for a key of [items] with a body
    that decodes to the story given there; the body of an item answer is
    the address it was asked at.  Item requests for other keys fail.  A
    link with the escape [%zz] does not parse; the host name of any other
    is what stands between the scheme and the first slash. *)
Definition upstream (list_body : string) (keys : list Z * bool)
    (items : list (Z * story)) : World :=
  {| http_Get url :=
       if strings.HasPrefix url (baseURL +:+ "v0/item/")
       then if existsb (λ e, String.eqb url (keyURL e.1)) items
            then Some {| body_data := url; body_err := None |}
            else None
       else Some {| body_data := list_body; body_err := None |};
     json_Unmarshal_keys b :=
       if String.eqb b list_body then keys else ([], true);
     json_Unmarshal_story b :=
       snd <$> find (λ e, String.eqb b (keyURL e.1)) items;
     humanize_Time t := pretty (1700000000 - t) +:+ " seconds ago";
     url_Hostname u :=
       if strings.Contains u "%zz" then None
       else Some (until_slash (strings.TrimPrefix u "https://"));
     template_ok := true |}.

(** [n] consecutive steps of one actor. *)
Definition steps (a : actor) (n : nat) : list actor := replicate n a.

(** Thirty-one keys, every item eligible. *)
Definition keys31 : list Z := seqZ 1 31.

Definition world31 : World :=
  upstream "[1..31]" (keys31, false) ((λ k, (k, github_story k)) <$> keys31).

(** The loop starts all thirty-one goroutines before any of them has
    appended; each registers with the wait group; then they run one after
    the other. *)
Definition sched_overshoot : list actor :=
  steps Main 31 ++ (Go <$> seq 0 31) ++ [Main]
  ++ concat ((λ i, steps (Go i) 8) <$> seq 0 31) ++ [Main].

(** [wg.Wait()] is reached before the goroutine has called [wg.Add(1)]. *)
Definition sched_early_return : list actor := [Main; Main; Main; Main].

(** Two keys, both items eligible. *)
Definition world2 : World :=
  upstream "[1,2]" ([1; 2], false) [(1, github_story 1); (2, github_story 2)].

Definition sched_spawn2 : list actor := [Main; Main; Go 0; Go 1; Main].

(** Both goroutines evaluate [append(stories, s)] before either assigns. *)
Definition sched_lost_append : list actor :=
  sched_spawn2 ++ steps (Go 0) 4 ++ steps (Go 1) 4
  ++ [Go 0; Go 1; Go 0; Go 1]
  ++ steps (Go 0) 2 ++ steps (Go 1) 2 ++ [Main].

(** The second goroutine overwrites [body] between the first one's
    [ReadAll] and its [Unmarshal]. *)
Definition sched_shared_body : list actor :=
  sched_spawn2 ++ steps (Go 0) 3 ++ steps (Go 1) 3
  ++ steps (Go 0) 5 ++ steps (Go 1) 5 ++ [Main].

(** Each goroutine runs to its end before the next iteration of the loop. *)
Definition sched_sequential (n : nat) : list actor :=
  concat ((λ i, Main :: steps (Go i) 9) <$> seq 0 n) ++ [Main; Main].

(** A list answer that is not JSON. *)
Definition world_bad_list : World := upstream "<html>" ([], true) [].

(** Three keys; the second item links elsewhere. *)
Definition world_mixed : World :=
  upstream "[1,2,3]" ([1; 2; 3], false)
    [(1, github_story 1); (2, plain_story 2); (3, github_story 3)].

(** One goroutine after the other; the second leaves at the test of
    line 135. *)
Definition sched_mixed : list actor :=
  Main :: steps (Go 0) 9 ++ Main :: steps (Go 1) 7 ++ Main :: steps (Go 2) 9
  ++ [Main; Main].

(** Twelve keys, every item eligible. *)
Definition keys12 : list Z := seqZ 1 12.

Definition world12 : World :=
  upstream "[1..12]" (keys12, false) ((λ k, (k, github_story k)) <$> keys12).

(** All twelve goroutines are started and registered, and ten of them
    pass the channel. *)
Definition sched_ten_in_flight : list actor :=
  steps Main 12 ++ (Go <$> seq 0 12) ++ (Go <$> seq 0 10).

(** An eligible story whose link has an invalid escape. *)
Definition bad_link_story : story :=
  Story "pg" 0 7 [] 1 1160418111 "story 7" "story" "https://github.com/a%zz" EmptyString EmptyString.

Definition world_bad_link : World := upstream "[7]" ([7], false) [(7, bad_link_story)].

(** What a goroutine appends when nothing runs between its statements. *)
Definition fetch_item (W : World) (k : Z) : option story :=
  match http_Get W (keyURL k) with
  | None => None
  | Some res =>
      match body_err res with
      | Some _ => None
      | None =>
          match json_Unmarshal_story W (body_data res) with
          | None => None
          | Some s => filter_enrich W s
          end
      end
  end.

(** The loop of [getStories] when every goroutine ends before the next
    iteration. *)
Fixpoint collect (W : World) (keys : list Z) (acc : stories) : stories :=
  match keys with
  | [] => acc
  | key :: keys' =>
      if decide (target ≤ length acc)%nat then acc
      else collect W keys'
             (match fetch_item W key with Some s => acc ++ [s] | None => acc end)
  end.

(** The state [st] with the goroutines [ts] in front of its own. *)
Definition prepend (ts : list task) (st : state) : state :=
  State (st_main st) (ts ++ st_tasks st) (st_wg st) (st_semaphore st)
        (st_body st) (st_stories st).

(** A response whose body reads without error. *)
Definition answer (data : string) : Response :=
  {| body_data := data; body_err := None |}.

(** The item of key [k] can be fetched and decoded, and is eligible. *)
Definition fetches_eligible (W : World) (k : Z) : bool :=
  match http_Get W (keyURL k) with
  | Some r =>
      match body_err r, json_Unmarshal_story W (body_data r) with
      | None, Some s => eligible s
      | _, _ => false
      end
  | None => false
  end.

(** The identifiers of the stories a call returned. *)
Definition returned_ids (r : option (stories * option error)) : option (list Z) :=
  match r with
  | Some (ss, None) => Some (ID <$> ss)
  | _ => None
  end.

(** Counting the goroutines at certain statements. *)
Definition holding (t : task) : bool :=
  match at_ t with
  | PAdd | PAcquire | PExit => false
  | _ => true
  end.


Definition registered (t : task) : bool :=
  match at_ t with
  | PAdd | PRelease | PExit => false
  | _ => true
  end.

Definition count (f : task → bool) (ts : list task) : nat :=
  sum_list ((λ t, Nat.b2n (f t)) <$> ts).

(** Statements a goroutine still has to execute, at most. *)
Definition rank (p : pc) : nat :=
  match p with
  | PAdd => 9
  | PAcquire => 8
  | PGet => 7
  | PRead _ => 6
  | PUnmarshal => 5
  | PAppendLoad _ => 4
  | PAppendStore _ => 3
  | PDone => 2
  | PRelease => 1
  | PExit => 0
  end.

Definition main_rank (m : orch) : nat :=
  match m with
  | OLoop keys => (2 + 10 * length keys)%nat
  | OWait => 1
  | OReturned _ => 0
  end.

Definition ranks (ts : list task) : nat := sum_list ((λ t, rank (at_ t)) <$> ts).

Definition measure (st : state) : nat :=
  (main_rank (st_main st) + ranks (st_tasks st))%nat.

(** What holds of the shared variables throughout a run. *)
Record Inv (st : state) : Prop := {
  inv_sem : st_semaphore st = count holding (st_tasks st);
  inv_cap : (st_semaphore st ≤ semaphore_cap)%nat;
  inv_wg : st_wg st = Z.of_nat (count registered (st_tasks st))
}.

(** The deferred function has been reached: nothing is appended any more. *)
Definition finishing (t : task) : bool :=
  match at_ t with
  | PDone | PRelease | PExit => true
  | _ => false
  end.

(** The item endpoint of section 6, [<base>/item/<id>.json], built the way
    the list endpoints are built from [baseURL]. *)
Definition item_endpoint (id : Z) : string :=
  baseURL +:+ "item/" +:+ pretty id +:+ ".json".

(** An upstream that cannot be reached. *)
Definition world_down : World :=
  {| http_Get _ := None;
     json_Unmarshal_keys _ := ([], true);
     json_Unmarshal_story _ := None;
     humanize_Time _ := EmptyString;
     url_Hostname _ := None;
     template_ok := true |}.

(** The upstream of [world2] on a server whose template does not parse. *)
Definition world2_no_template : World :=
  {| http_Get := http_Get world2;
     json_Unmarshal_keys := json_Unmarshal_keys world2;
     json_Unmarshal_story := json_Unmarshal_story world2;
     humanize_Time := humanize_Time world2;
     url_Hostname := url_Hostname world2;
     template_ok := false |}.

(** What the handler writes for the stories [s]. *)
Definition page200 (pageType : string) (s : stories) : list rw_call :=
  [WriteHeader 200; Header_Set "Content-type" "text/html;charset=utf-8";
   Execute {| Stories := s; Page := pageType |}].

Definition page500 (msg : string) : list rw_call := [WriteHeader 500; Write msg].

(** The keys [getStories] ranges over (line 74). *)
Definition keys_of (W : World) (res : Response) : list Z :=
  (json_Unmarshal_keys W (body_data res)).1.

(** The upstream of [world2], except that the connection breaks after the
    last byte of the first item: [ReadAll] returns the whole body together
    with an error. *)
Definition world_failed_read : World :=
  {| http_Get url :=
       if String.eqb url (keyURL 1)
       then Some {| body_data := url; body_err := Some "unexpected EOF" |}
       else http_Get world2 url;
     json_Unmarshal_keys := json_Unmarshal_keys world2;
     json_Unmarshal_story := json_Unmarshal_story world2;
     humanize_Time := humanize_Time world2;
     url_Hostname := url_Hostname world2;
     template_ok := true |}.

(** The upstream of [world2], except that the body of the first item is
    not JSON. *)
Definition world_undecodable : World :=
  {| http_Get url :=
       if String.eqb url (keyURL 1) then Some (answer "<html>")
       else http_Get world2 url;
     json_Unmarshal_keys := json_Unmarshal_keys world2;
     json_Unmarshal_story b :=
       if String.eqb b "<html>" then None else json_Unmarshal_story world2 b;
     humanize_Time := humanize_Time world2;
     url_Hostname := url_Hostname world2;
     template_ok := true |}.

(** The second goroutine has read its body when the read of the first
    fails; it then decodes what the failed read left in [body]. *)
Definition sched_failed_read : list actor :=
  sched_spawn2 ++ steps (Go 0) 2 ++ steps (Go 1) 3 ++ [Go 0]
  ++ steps (Go 1) 5 ++ steps (Go 0) 2 ++ [Main].

(** The first goroutine reads its body between the second one's [ReadAll]
    and [Unmarshal]. *)
Definition sched_undecodable : list actor :=
  sched_spawn2 ++ steps (Go 1) 3 ++ steps (Go 0) 3
  ++ steps (Go 1) 3 ++ steps (Go 0) 3 ++ [Main].

(** One goroutine after the other; the first leaves after [n] statements. *)
Definition sched_first_fails (n : nat) : list actor :=
  Main :: steps (Go 0) n ++ Main :: steps (Go 1) 9 ++ [Main; Main].

(** An eligible story whose link has an invalid escape and whose JSON
    object has a member [DomainName]; the field has no tag, so
    [json.Unmarshal] stores the member in it. *)
Definition evil_story : story :=
  Story "pg" 0 9 [] 1 1160418111 "story 9" "story" "https://github.com/a%zz"
        "evil.example" EmptyString.

Definition world_evil_host : World := upstream "[9]" ([9], false) [(9, evil_story)].

(** What happens to the cache between two requests: a sweep, or a write
    by another request. *)
Inductive cache_op : Type :=
| OpSweep (now : Z)
| OpSet (k : string) (x : stories) (now : Z).

Definition cache_apply (c : cache.Cache) (op : cache_op) : cache.Cache :=
  match op with
  | OpSweep now => cache.DeleteExpired c now
  | OpSet k x now => cache.Set_ c k x now
  end.

Definition cache_after (c : cache.Cache) (ops : list cache_op) : cache.Cache :=
  foldl cache_apply c ops.

(** [op] does not write the entry of [pageType]. *)
Definition leaves_page (pageType : string) (op : cache_op) : Prop :=
  match op with
  | OpSet k _ _ => k ≠ pageType
  | OpSweep _ => True
  end.

(** [op] is no sweep later than [t]. *)
Definition not_after (t : Z) (op : cache_op) : Prop :=
  match op with
  | OpSweep now => now ≤ t
  | OpSet _ _ _ => True
  end.

(** What a request that misses the cache [c] makes of the answer of
    [getStoriesFromType] (lines 212-241). *)
Definition after_miss (W : World) (pageType : string) (t_set : Z) (c : cache.Cache)
    (r : option (stories * option error)) : option (cache.Cache * list rw_call) :=
  match r with
  | None => None
  | Some (_, Some err) => Some (c, page500 err)
  | Some (s, None) =>
      Some (cache.Set_ c pageType s t_set,
            if template_ok W then page200 pageType s
            else page500 "could not parse template file")
  end.

(** ** Where returned stories come from *)

(** [s] is what lines 128-140 make of the body of some item answer for a
    key of [keys]. *)
Definition from_upstream (W : World) (keys : list Z) (s : story) : Prop :=
  ∃ k res s0, k ∈ keys ∧ http_Get W (keyURL k) = Some res ∧
    json_Unmarshal_story W (body_data res) = Some s0 ∧
    filter_enrich W s0 = Some s.

(** [b] is the body of some item answer for a key of [keys]. *)
Definition item_body (W : World) (keys : list Z) (b : string) : Prop :=
  ∃ k res, k ∈ keys ∧ http_Get W (keyURL k) = Some res ∧ b = body_data res.

(** What the locals of a goroutine hold, given the shared [body]. *)
Definition task_ok (W : World) (keys : list Z) (b : string) (t : task) : Prop :=
  storyKey t ∈ keys ∧
  match at_ t with
  | PRead res => http_Get W (keyURL (storyKey t)) = Some res
  | PUnmarshal => item_body W keys b
  | PAppendLoad s => from_upstream W keys s
  | PAppendStore new => Forall (from_upstream W keys) new
  | _ => True
  end.

Definition main_ok (W : World) (keys : list Z) (m : orch) : Prop :=
  match m with
  | OReturned r => Forall (from_upstream W keys) r
  | _ => True
  end.

Record Prov (W : World) (keys : list Z) (st : state) : Prop := {
  prov_tasks : Forall (task_ok W keys (st_body st)) (st_tasks st);
  prov_stories : Forall (from_upstream W keys) (st_stories st);
  prov_main : main_ok W keys (st_main st)
}.

(** The goroutines are started in the order of the keys: the keys of the
    goroutines, followed by the keys the loop has not reached, are the
    list. *)
Definition in_order (keys : list Z) (st : state) : Prop :=
  ∃ rest, keys = (storyKey <$> st_tasks st) ++ rest ∧
    match st_main st with OLoop ks => rest = ks | _ => True end.

(** No more stories than goroutines that are through with appending. *)
Definition size_ok (d : nat) (t : task) : Prop :=
  match at_ t with
  | PAppendStore new => (length new ≤ S d)%nat
  | _ => True
  end.

Record Sized (st : state) : Prop := {
  sized_tasks : Forall (size_ok (count finishing (st_tasks st))) (st_tasks st);
  sized_stories : (length (st_stories st) ≤ count finishing (st_tasks st))%nat;
  sized_main : match st_main st with
               | OReturned r => (length r ≤ count finishing (st_tasks st))%nat
               | _ => True
               end
}.

(** Every entry of the cache holds eligible stories only. *)
Definition cache_eligible (c : cache.Cache) : Prop :=
  ∀ k it, cache.items c !! k = Some it → Forall (λ s, eligible s = true) (cache.Object it).

(** The status written first, if any. *)
Definition status_of (calls : list rw_call) : option Z :=
  match calls with
  | WriteHeader code :: _ => Some code
  | _ => None
  end.

(** The list endpoint a page type stands for. *)
Definition page_class (pageType : string) : string :=
  if String.eqb pageType "best" then "best"
  else if String.eqb pageType "new" then "new"
  else if String.eqb pageType "show" then "show"
  else "top".

(** ** Substring test *)

Module strings_facts.

Lemma append_nil (s : string) : EmptyString +:+ s = s.
Proof. reflexivity. Qed.

Lemma append_cons (a : Ascii.ascii) (s t : string) :
  String a s +:+ t = String a (s +:+ t).
Proof. reflexivity. Qed.

Lemma Contains_unfold (s sub : string) :
  strings.Contains s sub =
  strings.HasPrefix s sub ||
  match s with EmptyString => false | String _ s' => strings.Contains s' sub end.
Proof. by destruct s. Qed.

Lemma HasPrefix_app (p post : string) : strings.HasPrefix (p +:+ post) p = true.
Proof.
  induction p as [|a p IH].
  - rewrite append_nil. by destruct post.
  - rewrite append_cons. simpl. by rewrite Ascii.eqb_refl.
Qed.

Lemma HasPrefix_inv (s p : string) :
  strings.HasPrefix s p = true → ∃ post, s = p +:+ post.
Proof.
  revert s. induction p as [|b p IH]; intros s H.
  - exists s. reflexivity.
  - destruct s as [|a s]; simpl in H; [discriminate|].
    destruct (Ascii.eqb_spec a b) as [->|]; [|discriminate].
    destruct (IH _ H) as [post ->]. by exists post.
Qed.

Lemma Contains_app (pre sub post : string) :
  strings.Contains (pre +:+ sub +:+ post) sub = true.
Proof.
  induction pre as [|a pre IH].
  - rewrite append_nil, Contains_unfold, HasPrefix_app. reflexivity.
  - rewrite append_cons, Contains_unfold, IH. apply orb_true_r.
Qed.

Lemma Contains_inv (s sub : string) :
  strings.Contains s sub = true → ∃ pre post, s = pre +:+ sub +:+ post.
Proof.
  induction s as [|a s IH]; rewrite Contains_unfold; intros H.
  - rewrite orb_false_r in H. apply HasPrefix_inv in H as [post ->].
    by exists EmptyString, post.
  - apply orb_true_iff in H as [H|H].
    + apply HasPrefix_inv in H as [post ->]. by exists EmptyString, post.
    + destruct (IH H) as (pre & post & ->). by exists (String a pre), post.
Qed.

(** [Contains] decides the occurrence of [sub] somewhere in [s]. *)
Lemma Contains_spec (s sub : string) :
  strings.Contains s sub = true ↔ ∃ pre post, s = pre +:+ sub +:+ post.
Proof.
  split; [apply Contains_inv|]. intros (pre & post & ->). apply Contains_app.
Qed.

End strings_facts.

(** C4: an item is eligible exactly when its link holds "github" or "gitlab"
    as a substring; so a GitHub link is eligible, a link to example.com is
    not, and a link to notgithub.example is. *)
Theorem eligible_iff_substring :
  (∀ s : story,
     eligible s = true ↔
     (∃ pre post, URL s = pre +:+ "github" +:+ post) ∨
     (∃ pre post, URL s = pre +:+ "gitlab" +:+ post)) ∧
  (∀ s, URL s = "https://github.com/x/y" → eligible s = true) ∧
  (∀ s, URL s = "https://example.com" → eligible s = false) ∧
  (∀ s, URL s = "https://notgithub.example" → eligible s = true).
Proof.
  split; [|by repeat split; intros s Hs; unfold eligible; rewrite Hs].
  intros s. unfold eligible.
  rewrite orb_true_iff, !strings_facts.Contains_spec. reflexivity.
Qed.

(** ** The result cache *)

Module cache_facts.

Lemma Get_Set_eq (c : cache.Cache) (k : string) (v : stories) (t t' : Z) :
  cache.Get (cache.Set_ c k v t) k t' =
  if (t + cache.defaultExpiration c <? t')%Z then None else Some v.
Proof. unfold cache.Get, cache.Set_; simpl. by rewrite lookup_insert_eq. Qed.

(** A sweep removes entries, it never changes what [Get] answers. *)
Lemma Get_DeleteExpired (c : cache.Cache) (s : Z) (k : string) (t : Z) (x : stories) :
  cache.Get (cache.DeleteExpired c s) k t = Some x → cache.Get c k t = Some x.
Proof.
  unfold cache.Get, cache.DeleteExpired; simpl.
  destruct (filter _ (cache.items c) !! k) as [it|] eqn:E; [|discriminate].
  apply map_lookup_filter_Some in E as [-> _]. done.
Qed.

Lemma Get_sweeps (ts : list Z) (c : cache.Cache) (k : string) (t : Z) (x : stories) :
  cache.Get (cache.sweeps c ts) k t = Some x → cache.Get c k t = Some x.
Proof.
  revert c. induction ts as [|s ts IH]; intros c H; [done|].
  apply IH in H. by apply Get_DeleteExpired in H.
Qed.

Lemma Set_ttl (c : cache.Cache) (k : string) (v : stories) (t : Z) :
  cache.defaultExpiration (cache.Set_ c k v t) = cache.defaultExpiration c.
Proof. reflexivity. Qed.

End cache_facts.

(** C7: [Set(k, v)] followed at once by [Get(k)] returns [v] with
    [found = true]; a [Get(k)] made more than the time-to-live after the
    [Set] finds nothing; and whatever sweeps ran in between, a value that
    [Get] does return is [v] and is no older than the time-to-live, which
    is thirty minutes for [cash]. *)
Theorem cache_set_then_get (c : cache.Cache) (k : string) (v : stories) (t : Z) :
  (0 ≤ cache.defaultExpiration c)%Z →
  cache.Get (cache.Set_ c k v t) k t = Some v ∧
  (∀ t' sw, (t + cache.defaultExpiration c < t')%Z →
     cache.Get (cache.sweeps (cache.Set_ c k v t) sw) k t' = None) ∧
  (∀ t' sw x, cache.Get (cache.sweeps (cache.Set_ c k v t) sw) k t' = Some x →
     x = v ∧ (t' ≤ t + cache.defaultExpiration c)%Z) ∧
  cache.defaultExpiration cash_init = (30 * cache.Minute)%Z.
Proof.
  intros Httl. repeat split.
  - rewrite cache_facts.Get_Set_eq. case_eq (t + cache.defaultExpiration c <? t)%Z; [|done].
    intros H%Z.ltb_lt. lia.
  - intros t' sw Hlate.
    destruct (cache.Get (cache.sweeps _ sw) k t') as [x|] eqn:E; [|done].
    apply cache_facts.Get_sweeps in E. rewrite cache_facts.Get_Set_eq in E.
    apply Z.ltb_lt in Hlate. rewrite Hlate in E. discriminate.
  - apply cache_facts.Get_sweeps in H. rewrite cache_facts.Get_Set_eq in H.
    destruct (_ <? _)%Z; congruence.
  - apply cache_facts.Get_sweeps in H. rewrite cache_facts.Get_Set_eq in H.
    destruct (Z.ltb_spec (t + cache.defaultExpiration c) t'); [discriminate|done].
Qed.

Lemma cache_set_then_get_witness :
  cache.Get (cache.Set_ cash_init "top" [github_story 1] 5) "top" 5
    = Some [github_story 1] ∧
  cache.Get (cache.sweeps (cache.Set_ cash_init "top" [github_story 1] 5)
               [600000000000; 1200000000000; 1800000000000]%Z)
            "top" 1800000000006 = None.
Proof.
  assert (H : (0 ≤ cache.defaultExpiration cash_init)%Z) by (vm_compute; discriminate).
  destruct (cache_set_then_get cash_init "top" [github_story 1] 5 H) as (H1 & H2 & _).
  split; [exact H1|]. apply H2. vm_compute. reflexivity.
Defined.

(** ** The item address *)

(** C9: the address asked for item 8863 repeats the version segment of
    [baseURL]; for no identifier is it the item endpoint of the API. *)
Theorem keyURL_repeats_version_segment :
  keyURL 8863 = "https://hacker-news.firebaseio.com/v0/v0/item/8863.json" ∧
  item_endpoint 8863 = "https://hacker-news.firebaseio.com/v0/item/8863.json" ∧
  (∀ id, keyURL id ≠ item_endpoint id) ∧
  listURL "top" = "https://hacker-news.firebaseio.com/v0/topstories.json".
Proof.
  split; [by vm_compute|]. split; [by vm_compute|]. split; [|by vm_compute].
  intros id. unfold keyURL, item_endpoint, baseURL.
  rewrite !strings_facts.append_cons, !strings_facts.append_nil.
  discriminate.
Qed.

(** ** Enrichment *)

Lemma run_app (W : World) (s1 s2 : list actor) (st : state) :
  run W (s1 ++ s2) st = run W s1 st ≫= run W s2.
Proof.
  revert st. induction s1 as [|a s1 IH]; intros st; simpl; [done|].
  destruct (exec W a st); simpl; [apply IH|done].
Qed.

(** C10: an eligible item whose link does not parse is appended all the
    same, with its relative age set and its host name left as decoded: the
    goroutine that decoded it appends it with its next three statements. *)
Theorem unparsable_link_keeps_item (W : World) (s : story) :
  eligible s = true →
  url_Hostname W (URL s) = None →
  ∃ s', filter_enrich W s = Some s' ∧
        s' = set_HumanTime (humanize_Time W (Time s)) s ∧
        HumanTime s' = humanize_Time W (Time s) ∧
        DomainName s' = DomainName s ∧
        ∀ st i k,
          st_tasks st !! i = Some (Task k PUnmarshal) →
          json_Unmarshal_story W (st_body st) = Some s →
          ∃ st', run W [Go i; Go i; Go i] st = Some st' ∧
                 st_stories st' = st_stories st ++ [s'].
Proof.
  intros Hel Hurl. exists (set_HumanTime (humanize_Time W (Time s)) s).
  assert (Hfe : filter_enrich W s = Some (set_HumanTime (humanize_Time W (Time s)) s)).
  { unfold filter_enrich. rewrite Hel. simpl. by rewrite Hurl. }
  repeat split; [done..|].
  intros [m ts w c b ss] i k Hi Hb. simpl in *.
  assert (Hlt : (i < length ts)%nat) by (by eapply lookup_lt_Some).
  unfold task_step at 1; simpl. rewrite Hi, Hb, Hfe.
  unfold task_step at 1, goto; simpl.
  rewrite list_lookup_insert_eq by done.
  unfold task_step at 1, goto; simpl.
  rewrite list_lookup_insert_eq by (by rewrite length_insert).
  eexists. split; reflexivity.
Qed.

Lemma unparsable_link_keeps_item_witness :
  ∃ s', filter_enrich world_bad_link bad_link_story = Some s' ∧
        HumanTime s' = "539581889 seconds ago" ∧ DomainName s' = EmptyString ∧
        returned_ids (getStories world_bad_link (sched_sequential 1) (answer "[7]"))
          = Some [7].
Proof.
  destruct (unparsable_link_keeps_item world_bad_link bad_link_story)
    as (s' & H1 & H2 & H3 & H4 & _); [by vm_compute..|].
  exists s'. split; [exact H1|]. split; [|split; [|by vm_compute]].
  - rewrite H3. by vm_compute.
  - rewrite H4. reflexivity.
Defined.

(** The host name is not always left empty: an eligible item whose link
    does not parse and whose JSON object has a member [DomainName] is
    returned with that member as its host name. *)
Lemma decoded_host_name_is_kept :
  eligible evil_story = true ∧
  url_Hostname world_evil_host (URL evil_story) = None ∧
  ∃ s', getStories world_evil_host (sched_sequential 1) (answer "[9]")
        = Some ([s'], None) ∧
        DomainName s' = "evil.example" ∧ DomainName s' ≠ EmptyString.
Proof.
  split; [by vm_compute|]. split; [by vm_compute|].
  eexists. split; [vm_compute; reflexivity|]. by split.
Qed.

(** ** Invariants of a run *)

Section sums.
Context {A : Type} (g : A → nat).

Lemma sum_insert (l : list A) (i : nat) (x y : A) :
  l !! i = Some x →
  (sum_list (g <$> <[i:=y]> l) + g x = sum_list (g <$> l) + g y)%nat.
Proof.
  revert i. induction l as [|a l IH]; intros [|i] H; csimpl in *; simplify_eq.
  - lia.
  - specialize (IH i H). lia.
Qed.
Lemma sum_lookup_le (l : list A) (i : nat) (x : A) :
  l !! i = Some x → (g x ≤ sum_list (g <$> l))%nat.
Proof.
  revert i. induction l as [|a l IH]; intros [|i] H; csimpl in *; simplify_eq.
  - lia.
  - specialize (IH i H). lia.
Qed.


Lemma sum_filter (P : A → bool) (l : list A) :
  (∀ x, g x = Nat.b2n (P x)) →
  sum_list (g <$> l) = length (filter (λ x, P x = true) l).
Proof.
  intros HP. induction l as [|a l IH]; csimpl; [done|].
  rewrite filter_cons, HP, IH. by destruct (P a).
Qed.
End sums.

Lemma count_insert (f : task → bool) (ts : list task) (i : nat) (t t' : task) :
  ts !! i = Some t →
  (count f (<[i:=t']> ts) + Nat.b2n (f t) = count f ts + Nat.b2n (f t'))%nat.
Proof. apply (sum_insert (λ t, Nat.b2n (f t))). Qed.

Lemma count_snoc (f : task → bool) (ts : list task) (t : task) :
  count f (ts ++ [t]) = (count f ts + Nat.b2n (f t))%nat.
Proof. unfold count. rewrite fmap_app, sum_list_with_app. simpl. lia. Qed.

Lemma count_filter (f : task → bool) (ts : list task) :
  count f ts = length (filter (λ t, f t = true) ts).
Proof. by apply sum_filter. Qed.

Lemma ranks_insert (ts : list task) (i : nat) (t t' : task) :
  ts !! i = Some t →
  (ranks (<[i:=t']> ts) + rank (at_ t) = ranks ts + rank (at_ t'))%nat.
Proof. apply (sum_insert (λ t, rank (at_ t))). Qed.

Lemma ranks_snoc (ts : list task) (t : task) :
  ranks (ts ++ [t]) = (ranks ts + rank (at_ t))%nat.
Proof. unfold ranks. rewrite fmap_app, sum_list_with_app. simpl. lia. Qed.


Lemma Inv_init (data : string) (keys : list Z) : Inv (init data keys).
Proof. split; simpl; unfold semaphore_cap; try done; lia. Qed.

(** Facts about the replaced goroutine, ready for [lia]. *)
Ltac account Hi :=
  match goal with
  | |- context [<[?i := ?t']> ?ts] =>
      let H1 := fresh in let H2 := fresh in let H3 := fresh in
      pose proof (count_insert holding ts i _ t' Hi) as H1;
      pose proof (count_insert registered ts i _ t' Hi) as H2;
      pose proof (ranks_insert ts i _ t' Hi) as H3;
      simpl in H1, H2, H3
  end.

(** A statement of a goroutine keeps the invariant, brings the goroutine
    closer to its end and leaves the main goroutine where it is. *)
Lemma task_step_Inv (W : World) (i : nat) (st st' : state) :
  Inv st → task_step W i st = Some st' →
  Inv st' ∧ (measure st' < measure st)%nat ∧ st_main st' = st_main st.
Proof.
  intros [Hs Hc Hw] H. destruct st as [m ts w c b ss].
  unfold task_step in H; simpl in *.
  destruct (ts !! i) as [[k p]|] eqn:Hi; [|done].
  unfold semaphore_cap in *.
  destruct p; simpl in H; repeat case_match; simplify_eq;
    unfold measure, goto; simpl; account Hi;
    (split; [split; simpl; unfold semaphore_cap|split; [|done]]); lia.
Qed.

Lemma main_step_Inv (st st' : state) :
  Inv st → main_step st = Some st' →
  Inv st' ∧ (measure st' < measure st)%nat.
Proof.
  intros [Hs Hc Hw] H. destruct st as [m ts w c b ss].
  unfold main_step in H; simpl in *.
  destruct m as [[|key keys]| |]; repeat case_match; simplify_eq;
    unfold measure; simpl;
    rewrite ?count_snoc, ?ranks_snoc; simpl;
    (split; [split; simpl; rewrite ?count_snoc; simpl|]); lia.
Qed.

Lemma exec_Inv (W : World) (a : actor) (st st' : state) :
  Inv st → exec W a st = Some st' →
  Inv st' ∧ (measure st' < measure st)%nat.
Proof.
  intros HI H. destruct a as [|i]; simpl in H.
  - by apply main_step_Inv.
  - by destruct (task_step_Inv W i st st' HI H) as (? & ? & _).
Qed.

Lemma run_Inv (W : World) (sched : list actor) (st st' : state) :
  Inv st → run W sched st = Some st' → Inv st'.
Proof.
  revert st. induction sched as [|a sched IH]; intros st HI H; simpl in H.
  - by simplify_eq.
  - destruct (exec W a st) as [st1|] eqn:E; [|done].
    apply (IH st1); [|done]. by destruct (exec_Inv W a st st1).
Qed.


(** ** The admission gate *)



(** ** The list answer *)

(** On a miss, when the list request fails the handler answers 500 with
    the message that names the list, and when the reading of its body
    fails it answers 500 with the message that names the data; in both
    cases the cache is left alone, whatever the schedule. *)
Lemma pageHandler_list_unavailable (W : World) (sched : list actor)
    (pageType : string) (t_get t_set : Z) (cash : cache.Cache) :
  cache.Get cash pageType t_get = None →
  (http_Get W (listURL pageType) = None →
   pageHandler W sched pageType t_get t_set cash
   = Some (cash, [WriteHeader 500;
                  Write ("could not get " +:+ pageType +:+
                         " hacker news posts list")])) ∧
  (∀ res e, http_Get W (listURL pageType) = Some res → body_err res = Some e →
   pageHandler W sched pageType t_get t_set cash
   = Some (cash, [WriteHeader 500;
                  Write ("could not get " +:+ pageType +:+
                         " hacker news posts data")])).
Proof.
  intros Hmiss. unfold pageHandler, getStoriesFromType. rewrite Hmiss. split.
  - by intros ->.
  - intros res e -> He. unfold getStories. by rewrite He.
Qed.

(** When the list body is read, the handler never reports a list failure,
    whatever [json.Unmarshal] said about the body: if the call completes
    and the template parses, the answer is 200 and the cache is written. *)
Lemma pageHandler_ignores_decode_error (W : World) (sched : list actor)
    (pageType : string) (t_get t_set : Z) (cash cash' : cache.Cache)
    (res : Response) (calls : list rw_call) :
  cache.Get cash pageType t_get = None →
  http_Get W (listURL pageType) = Some res → body_err res = None →
  template_ok W = true →
  pageHandler W sched pageType t_get t_set cash = Some (cash', calls) →
  ∃ s, cash' = cache.Set_ cash pageType s t_set ∧
       calls = [WriteHeader 200;
                Header_Set "Content-type" "text/html;charset=utf-8";
                Execute {| Stories := s; Page := pageType |}].
Proof.
  intros Hmiss Hget Hres Htmpl H.
  unfold pageHandler, getStoriesFromType, getStories in H.
  rewrite Hmiss, Hget, Hres, Htmpl in H.
  repeat case_match; simplify_eq; eauto.
Qed.

(** C3: the list answer is a body that does not decode.  [getStories]
    drops the error of [json.Unmarshal], ranges over no key and returns an
    empty list with a nil error; the handler answers 200 with an empty page
    and stores the empty list in the cache, where the next request finds
    it. *)
Theorem undecodable_list_is_cached :
  json_Unmarshal_keys world_bad_list "<html>" = ([], true) ∧
  getStoriesFromType world_bad_list [Main; Main] "top" = Some ([], None) ∧
  ∃ cash',
    pageHandler world_bad_list [Main; Main] "top" 0 5 cash_init
    = Some (cash', [WriteHeader 200;
                    Header_Set "Content-type" "text/html;charset=utf-8";
                    Execute {| Stories := []; Page := "top" |}]) ∧
    cash' = cache.Set_ cash_init "top" [] 5 ∧
    cache.Get cash_init "top" 6 = None ∧
    cache.Get cash' "top" 6 = Some [].
Proof.
  split; [by vm_compute|]. split; [by vm_compute|].
  eexists. split; [|split]; [| reflexivity |].
  - by vm_compute.
  - by vm_compute.
Qed.

(** ** Races *)

(** C1: thirty-one keys, every item eligible.  When the loop has started
    all goroutines before the first of them appends, [getStories] returns
    thirty-one stories; when [wg.Wait()] is reached before any goroutine
    has called [wg.Add(1)], it returns none; when every goroutine ends
    before the next iteration, it returns thirty. *)
Theorem thirty_one_eligible_keys :
  forallb (fetches_eligible world31) keys31 = true ∧
  json_Unmarshal_keys world31 "[1..31]" = (keys31, false) ∧
  returned_ids (getStories world31 sched_overshoot (answer "[1..31]"))
    = Some (seqZ 1 31) ∧
  returned_ids (getStories world31 (steps Main 33) (answer "[1..31]"))
    = Some [] ∧
  returned_ids (getStories world31 (sched_sequential 30) (answer "[1..31]"))
    = Some (seqZ 1 30).
Proof. repeat split; by vm_compute. Qed.

(** C2: two keys, both items eligible.  When both goroutines evaluate
    [append(stories, s)] before either assigns the result, the first
    story is lost; when the second goroutine reads its body between the
    first one's [ReadAll] and [Unmarshal], the second story is returned
    twice and the first not at all; without interleaving both are
    returned. *)
Theorem unguarded_append_loses_and_duplicates :
  forallb (fetches_eligible world2) [1; 2] = true ∧
  returned_ids (getStories world2 sched_lost_append (answer "[1,2]")) = Some [2] ∧
  returned_ids (getStories world2 sched_shared_body (answer "[1,2]")) = Some [2; 2] ∧
  returned_ids (getStories world2 (sched_sequential 2) (answer "[1,2]")) = Some [1; 2].
Proof. repeat split; by vm_compute. Qed.

(** C5: two keys, both items eligible.  The loop ends and [wg.Wait()]
    finds the counter at zero, because no goroutine has yet called
    [wg.Add(1)]: [getStories] returns no story at all. *)
Theorem wait_returns_before_goroutines_register :
  forallb (fetches_eligible world2) [1; 2] = true ∧
  json_Unmarshal_keys world2 "[1,2]" = ([1; 2], false) ∧
  getStories world2 sched_early_return (answer "[1,2]") = Some ([], None).
Proof. repeat split; by vm_compute. Qed.

(** C6: two keys, the second item healthy and eligible.  When the read of
    the first item fails after the whole body has arrived, the failing
    read still assigns [body]; the second goroutine, which had read its own
    body, decodes that of the first: the item whose fetch failed is
    returned and the healthy one is lost.  When the body of the first item
    does not decode and is read between the second goroutine's [ReadAll]
    and [Unmarshal], the second goroutine fails to decode it and the
    healthy item is lost as well.  Without interleaving the healthy item is
    returned in both cases. *)
Theorem item_failure_reaches_other_goroutines :
  fetch_item world_failed_read 1 = None ∧
  fetches_eligible world_failed_read 2 = true ∧
  returned_ids (getStories world_failed_read sched_failed_read (answer "[1,2]"))
    = Some [1] ∧
  returned_ids (getStories world_failed_read (sched_first_fails 6) (answer "[1,2]"))
    = Some [2] ∧
  fetch_item world_undecodable 1 = None ∧
  fetches_eligible world_undecodable 2 = true ∧
  returned_ids (getStories world_undecodable sched_undecodable (answer "[1,2]"))
    = Some [] ∧
  returned_ids (getStories world_undecodable (sched_first_fails 7) (answer "[1,2]"))
    = Some [2].
Proof. repeat split; by vm_compute. Qed.

(** ** Runs without interleaving *)

Lemma run_cons (W : World) (a : actor) (sched : list actor) (st : state) :
  run W (a :: sched) st = exec W a st ≫= run W sched.
Proof. simpl. by destruct (exec W a st). Qed.

(** The statements of the goroutine started last do not depend on the
    goroutines before it. *)
Lemma task_step_last (W : World) (ts : list task) (st : state) :
  task_step W (length ts) (prepend ts st) = prepend ts <$> task_step W 0 st.
Proof.
  destruct st as [m us w c b ss]. unfold task_step, prepend; simpl.
  rewrite lookup_app_r, Nat.sub_diag by lia.
  destruct us as [|[k p] us]; simpl; [done|].
  assert (Hins : ∀ t, <[length ts := t]> (ts ++ Task k p :: us) = ts ++ t :: us).
  { intros t. rewrite insert_app_r_alt, Nat.sub_diag by lia. done. }
  destruct p; simpl; unfold goto; simpl; repeat case_match; simpl;
    by rewrite ?Hins.
Qed.

Lemma run_last (W : World) (ts : list task) (n : nat) (st : state) :
  run W (steps (Go (length ts)) n) (prepend ts st)
  = prepend ts <$> run W (steps (Go 0) n) st.
Proof.
  revert st. induction n as [|n IH]; intros st; [done|].
  unfold steps in *. simpl replicate. rewrite !run_cons. unfold exec.
  rewrite task_step_last. destruct (task_step W 0 st) as [st1|]; simpl; [|done].
  apply IH.
Qed.

(** A goroutine that runs alone from its first to its last statement
    appends what [fetch_item] says, and leaves the wait group and the
    channel as it found them. *)
(** Executes the next statement of a goroutine in the goal, using what the
    context says about the world. *)
Ltac one_statement :=
  unfold task_step at 1, goto; simpl;
  repeat match goal with
         | H : _ = _ |- _ => rewrite H; simpl
         end.

Lemma run_alone (W : World) (m : orch) (k : Z) (b : string) (ss : stories) :
  ∃ n b',
    run W (steps (Go 0) n) (State m [Task k PAdd] 0 0 b ss)
    = Some (State m [Task k PExit] 0 0 b'
              (match fetch_item W k with Some s => ss ++ [s] | None => ss end)).
Proof.
  unfold fetch_item.
  destruct (http_Get W (keyURL k)) as [res|] eqn:Hget.
  2: { exists 5%nat, b. simpl. by repeat one_statement. }
  destruct (body_err res) as [e|] eqn:Herr.
  { exists 6%nat, (body_data res). simpl. by repeat one_statement. }
  destruct (json_Unmarshal_story W (body_data res)) as [s|] eqn:Hdec.
  2: { exists 7%nat, (body_data res). simpl. by repeat one_statement. }
  destruct (filter_enrich W s) as [s'|] eqn:Hfe.
  - exists 9%nat, (body_data res). simpl. by repeat one_statement.
  - exists 7%nat, (body_data res). simpl. by repeat one_statement.
Qed.

Lemma sequential_loop (W : World) (keys : list Z) :
  ∀ ts b ss, ∃ sched ts' b',
    run W sched (State (OLoop keys) ts 0 0 b ss)
    = Some (State (OReturned (collect W keys ss)) ts' 0 0 b' (collect W keys ss)).
Proof.
  induction keys as [|key keys IH]; intros ts b ss.
  - exists [Main; Main], ts, b. reflexivity.
  - simpl collect. destruct (decide (target ≤ length ss)%nat) as [Hfull|Hroom].
    + exists [Main; Main], ts, b. simpl.
      destruct (decide (target ≤ length ss)%nat); [reflexivity|lia].
    + destruct (run_alone W (OLoop keys) key b ss) as (n & b1 & Hrun).
      set (ss1 := match fetch_item W key with Some s => ss ++ [s] | None => ss end) in *.
      destruct (IH (ts ++ [Task key PExit]) b1 ss1) as (sched & ts' & b' & Hrest).
      exists (Main :: steps (Go (length ts)) n ++ sched), ts', b'.
      rewrite run_cons. simpl exec. unfold main_step.
      destruct (decide (target ≤ length ss)%nat); [lia|]. simpl mbind.
      rewrite run_app.
      change (State (OLoop keys) (ts ++ [Task key PAdd]) 0 0 b ss)
        with (prepend ts (State (OLoop keys) [Task key PAdd] 0 0 b ss)).
      rewrite run_last, Hrun. exact Hrest.
Qed.

(** Some schedule makes [getStories] return what the loop collects when the
    goroutines do not interleave. *)
Lemma sequential_run (W : World) (res : Response) :
  body_err res = None →
  ∃ sched,
    getStories W sched res
    = Some (collect W (json_Unmarshal_keys W (body_data res)).1 [], None).
Proof.
  intros Hres.
  destruct (sequential_loop W (json_Unmarshal_keys W (body_data res)).1
              [] (body_data res) []) as (sched & ts' & b' & Hrun).
  exists sched. unfold getStories, init. by rewrite Hres, Hrun.
Qed.

Lemma collect_take (W : World) (keys : list Z) (acc : stories) :
  collect W keys acc
  = acc ++ take (target - length acc) (omap (fetch_item W) keys).
Proof.
  revert acc. induction keys as [|key keys IH]; intros acc; simpl.
  - by rewrite take_nil, app_nil_r.
  - destruct (decide (target ≤ length acc)%nat) as [Hfull|Hroom].
    + replace (target - length acc)%nat with 0%nat by lia.
      by rewrite take_0, app_nil_r.
    + rewrite IH. destruct (fetch_item W key) as [s|]; [|done].
      rewrite length_app; simpl.
      replace (target - length acc)%nat with (S (target - (length acc + 1))) by lia.
      by rewrite <- app_assoc.
Qed.

Lemma fetches_eligible_item (W : World) (k : Z) :
  fetches_eligible W k = true → is_Some (fetch_item W k).
Proof.
  unfold fetches_eligible, fetch_item, filter_enrich.
  destruct (http_Get W (keyURL k)) as [res|]; [|done].
  destruct (body_err res); [done|].
  destruct (json_Unmarshal_story W (body_data res)) as [s|]; [|done].
  intros ->. by destruct (url_Hostname W _).
Qed.

(** Without interleaving, thirty or more keys whose items are all eligible
    yield exactly thirty stories. *)
Lemma sequential_all_eligible (W : World) (keys : list Z) :
  (∀ k, k ∈ keys → fetches_eligible W k = true) →
  (target ≤ length keys)%nat →
  length (collect W keys []) = target.
Proof.
  intros Hall Hlen. rewrite collect_take. simpl.
  assert (Hsame : length (omap (fetch_item W) keys) = length keys).
  { clear Hlen. induction keys as [|k keys IH]; [done|]. simpl.
    destruct (fetches_eligible_item W k) as [s ->]; [apply Hall, list_elem_of_here|].
    simpl. f_equal. apply IH. intros k' Hk'. by apply Hall, list_elem_of_further. }
  rewrite length_take. unfold target in *. lia.
Qed.

(** Without interleaving, fewer than thirty eligible items are all
    returned, in the order of their keys. *)
Lemma sequential_few_eligible (W : World) (keys : list Z) :
  (length (omap (fetch_item W) keys) < target)%nat →
  collect W keys [] = omap (fetch_item W) keys.
Proof.
  intros Hfew. rewrite collect_take. simpl. apply take_ge. unfold target in *. lia.
Qed.

(** The scenario of three keys of which two link to a code host. *)
Example three_keys_two_eligible :
  returned_ids (getStoriesFromType world_mixed sched_mixed "new")
    = Some [1; 3] ∧
  collect world_mixed [1; 2; 3] [] = omap (fetch_item world_mixed) [1; 2; 3].
Proof. split; by vm_compute. Qed.

(** ** Addresses *)

Lemma length_append (s t : string) :
  String.length (s +:+ t) = (String.length s + String.length t)%nat.
Proof.
  induction s as [|a s IH]; [done|].
  rewrite strings_facts.append_cons. simpl. by rewrite IH.
Qed.

Lemma append_cancel_r (s1 s2 t : string) : s1 +:+ t = s2 +:+ t → s1 = s2.
Proof.
  revert s2. induction s1 as [|a s1 IH]; intros [|b s2] H.
  - done.
  - apply (f_equal String.length) in H.
    rewrite strings_facts.append_nil, strings_facts.append_cons in H.
    simpl in H. rewrite length_append in H. lia.
  - apply (f_equal String.length) in H.
    rewrite strings_facts.append_nil, strings_facts.append_cons in H.
    simpl in H. rewrite length_append in H. lia.
  - rewrite !strings_facts.append_cons in H. injection H as -> H.
    by rewrite (IH _ H).
Qed.

(** Two goroutines ask the same address only for the same key, and no item
    address is the address of a list. *)
Theorem keyURL_distinct (a b : Z) (pageType : string) :
  (keyURL a = keyURL b ↔ a = b) ∧ keyURL a ≠ listURL pageType.
Proof.
  split; [split; [|by intros ->]|].
  - unfold keyURL. intros H.
    apply (inj (String.append baseURL)) in H.
    apply (inj (String.append "v0/item/")) in H.
    apply append_cancel_r in H. by apply (inj pretty) in H.
  - unfold keyURL, listURL, baseURL.
    repeat case_match;
      rewrite !strings_facts.append_cons, !strings_facts.append_nil;
      destruct (pretty a) as [|c ?]; discriminate.
Qed.

(** The page types "best", "new" and "show" have a list of their own; every
    other page type, the empty one and other spellings included, gets the
    top list; page types share a list only when this says so. *)
Theorem listURL_classes (p q : string) :
  listURL p = baseURL +:+ page_class p +:+ "stories.json" ∧
  (p ≠ "best" → p ≠ "new" → p ≠ "show" → listURL p = listURL "top") ∧
  (listURL p = listURL q ↔ page_class p = page_class q).
Proof.
  assert (Hform : ∀ x, listURL x = baseURL +:+ page_class x +:+ "stories.json").
  { intros x. unfold listURL, page_class. by repeat case_match. }
  split; [apply Hform|]. split.
  - intros H1%String.eqb_neq H2%String.eqb_neq H3%String.eqb_neq.
    unfold listURL at 1. by rewrite H1, H2, H3.
  - rewrite !Hform. split; [|by intros ->].
    intros H. apply (inj (String.append baseURL)) in H.
    by apply append_cancel_r in H.
Qed.

(** ** Errors of the list request *)

(** An error comes without stories and says which of the two steps failed,
    the request or the reading of its body; the error of the reading
    itself is not passed on. *)
Theorem getStoriesFromType_error (W : World) (sched : list actor)
    (pageType : string) (ss : stories) (err : error) :
  getStoriesFromType W sched pageType = Some (ss, Some err) →
  ss = [] ∧
  ((http_Get W (listURL pageType) = None ∧
    err = "could not get " +:+ pageType +:+ " hacker news posts list") ∨
   (∃ res e, http_Get W (listURL pageType) = Some res ∧ body_err res = Some e ∧
      err = "could not get " +:+ pageType +:+ " hacker news posts data")).
Proof.
  unfold getStoriesFromType, getStories. intros H.
  destruct (http_Get W (listURL pageType)) as [res|]; [|simplify_eq; by auto].
  destruct (body_err res) as [e|] eqn:He.
  - simplify_eq. split; [done|]. right. by exists res, e.
  - repeat case_match; simplify_eq.
Qed.

Lemma getStoriesFromType_error_witness :
  @nil story = [] ∧
  ((http_Get world_down (listURL "new") = None ∧
    "could not get new hacker news posts list"
    = "could not get " +:+ "new" +:+ " hacker news posts list") ∨
   (∃ res e, http_Get world_down (listURL "new") = Some res ∧ body_err res = Some e ∧
      "could not get new hacker news posts list"
      = "could not get " +:+ "new" +:+ " hacker news posts data")).
Proof.
  apply (getStoriesFromType_error world_down [] "new" []
           "could not get new hacker news posts list").
  reflexivity.
Defined.

(** ** Order of the goroutines *)

Lemma task_step_keys (W : World) (i : nat) (st st' : state) :
  task_step W i st = Some st' →
  storyKey <$> st_tasks st' = storyKey <$> st_tasks st.
Proof.
  intros H. destruct st as [m ts w c b ss]. unfold task_step in H; simpl in *.
  destruct (ts !! i) as [[k p]|] eqn:Hi; [|done].
  assert (Hk : ∀ p', storyKey <$> <[i:=Task k p']> ts = storyKey <$> ts).
  { intros p'. rewrite list_fmap_insert. apply list_insert_id.
    by rewrite list_lookup_fmap, Hi. }
  destruct p; simpl in H; repeat case_match; simplify_eq; unfold goto; simpl;
    apply Hk.
Qed.

Lemma task_step_Inv_main (W : World) (i : nat) (st st' : state) :
  task_step W i st = Some st' → st_main st' = st_main st.
Proof.
  intros H. destruct st as [m ts w c b ss]. unfold task_step in H; simpl in *.
  destruct (ts !! i) as [[k p]|]; [|done].
  destruct p; simpl in H; repeat case_match; by simplify_eq.
Qed.

Lemma in_order_init (data : string) (keys : list Z) : in_order keys (init data keys).
Proof. by exists keys. Qed.

Lemma exec_in_order (W : World) (keys : list Z) (a : actor) (st st' : state) :
  in_order keys st → exec W a st = Some st' → in_order keys st'.
Proof.
  intros (rest & Hk & Hm) H. destruct a as [|i]; simpl in H.
  - destruct st as [m ts w c b ss]. unfold main_step in H; simpl in *.
    destruct m as [[|key ks]| |]; repeat case_match; simplify_eq.
    + by exists [].
    + by exists (key :: ks).
    + exists ks. split; [|done]. cbn [st_tasks]. by rewrite fmap_app, <- app_assoc.
    + by exists rest.
  - exists rest. rewrite (task_step_keys W i st st' H).
    split; [done|].
    by rewrite (task_step_Inv_main W i st st' H).
Qed.

Lemma run_in_order (W : World) (keys : list Z) (sched : list actor) (st st' : state) :
  in_order keys st → run W sched st = Some st' → in_order keys st'.
Proof.
  revert st. induction sched as [|a sched IH]; intros st HI H; simpl in H.
  - by simplify_eq.
  - destruct (exec W a st) as [st1|] eqn:E; [|done].
    apply (IH st1); [|done]. by eapply exec_in_order.
Qed.

(** ** Provenance of the stories *)

Lemma filter_enrich_Some (W : World) (s0 s : story) :
  filter_enrich W s0 = Some s →
  eligible s = true ∧ HumanTime s = humanize_Time W (Time s) ∧
  (By s, Descendants s, ID s, Kids s, Score s, Time s, Title s, Type_ s, URL s)
  = (By s0, Descendants s0, ID s0, Kids s0, Score s0, Time s0, Title s0,
     Type_ s0, URL s0) ∧
  (DomainName s = DomainName s0 ∨ url_Hostname W (URL s0) = Some (DomainName s)).
Proof.
  unfold filter_enrich. destruct (eligible s0) eqn:Hel; [|done].
  simpl. destruct (url_Hostname W (URL s0)) as [h|]; intros [= <-];
    unfold eligible in *; simpl; auto.
Qed.

Lemma task_ok_body (W : World) (keys : list Z) (b b' : string) (t : task) :
  item_body W keys b' → task_ok W keys b t → task_ok W keys b' t.
Proof. intros Hb' [Hk Ht]. split; [done|]. by destruct (at_ t). Qed.

Lemma Prov_init (W : World) (data : string) (keys : list Z) :
  Prov W keys (init data keys).
Proof. split; simpl; constructor. Qed.

Lemma task_step_Prov (W : World) (keys : list Z) (i : nat) (st st' : state) :
  Prov W keys st → task_step W i st = Some st' → Prov W keys st'.
Proof.
  intros [Ht Hs Hm] H. destruct st as [m ts w c b ss].
  unfold task_step in H; simpl in *.
  destruct (ts !! i) as [[k p]|] eqn:Hi; [|done].
  pose proof (Forall_lookup_1 _ _ _ _ Ht Hi) as [Hk Hp]. simpl in Hk, Hp.
  destruct p; simpl in H; repeat case_match; simplify_eq;
    (split; simpl; [|done..]); unfold goto; simpl;
    try (apply Forall_insert; [done|by split]).
  - (* the read failed: [body] holds what was read of this answer *)
    apply Forall_insert; [|by split].
    eapply Forall_impl; [done|]. intros t. apply task_ok_body. by exists k, res.
  - apply Forall_insert.
    + eapply Forall_impl; [done|]. intros t. apply task_ok_body. by exists k, res.
    + split; [done|]. by exists k, res.
  - apply Forall_insert; [done|]. split; [done|]. simpl.
    destruct Hp as (k' & res & Hk' & Hget & ->). by exists k', res, s.
  - apply Forall_insert; [done|]. split; [done|]. simpl.
    apply Forall_app. split; [done|]. by constructor.
Qed.

Lemma main_step_Prov (W : World) (keys : list Z) (st st' : state) :
  in_order keys st → Prov W keys st → main_step st = Some st' → Prov W keys st'.
Proof.
  intros (rest & Hk & Hrest) [Ht Hs Hm] H. destruct st as [m ts w c b ss].
  unfold main_step in H; simpl in *.
  destruct m as [[|key ks]| |]; repeat case_match; simplify_eq;
    (split; simpl; [|done..]); try done.
  apply Forall_app. split; [done|]. constructor; [|done]. split; [|done].
  simpl. apply elem_of_app. right. apply list_elem_of_here.
Qed.

Lemma run_Prov (W : World) (keys : list Z) (sched : list actor) (st st' : state) :
  in_order keys st → Prov W keys st → run W sched st = Some st' → Prov W keys st'.
Proof.
  revert st. induction sched as [|a sched IH]; intros st HO HP H; simpl in H.
  - by simplify_eq.
  - destruct (exec W a st) as [st1|] eqn:E; [|done].
    apply (IH st1); [by eapply exec_in_order| |done].
    destruct a as [|i]; simpl in E.
    + by eapply main_step_Prov.
    + by eapply task_step_Prov.
Qed.

(** ** Number of stories *)

Lemma size_ok_mono (d d' : nat) (t : task) :
  (d ≤ d')%nat → size_ok d t → size_ok d' t.
Proof. unfold size_ok. destruct (at_ t); try done. lia. Qed.

Lemma count_le_length (f : task → bool) (ts : list task) :
  (count f ts ≤ length ts)%nat.
Proof.
  unfold count. induction ts as [|t ts IH]; csimpl; [lia|].
  destruct (f t); simpl; lia.
Qed.

Lemma Sized_init (data : string) (keys : list Z) : Sized (init data keys).
Proof. split; simpl; [constructor|lia|done]. Qed.

Lemma task_step_Sized (W : World) (i : nat) (st st' : state) :
  Sized st → task_step W i st = Some st' → Sized st'.
Proof.
  intros [Ht Hs Hm] H. destruct st as [m ts w c b ss].
  unfold task_step in H; simpl in *.
  destruct (ts !! i) as [[k p]|] eqn:Hi; [|done].
  pose proof (Forall_lookup_1 _ _ _ _ Ht Hi) as Hp. unfold size_ok in Hp; simpl in Hp.
  pose proof (λ t', count_insert finishing ts i _ t' Hi) as Hcount.
  simpl in Hcount.
  destruct p; simpl in H; repeat case_match; simplify_eq; unfold goto; simpl;
    match goal with
    | |- context [<[i := ?t']> ts] => specialize (Hcount t'); simpl in Hcount
    end;
    (split; simpl;
     [ apply Forall_insert;
       [ eapply Forall_impl; [exact Ht|];
         intros t; apply size_ok_mono; lia
       | unfold size_ok; simpl; rewrite ?length_app; simpl; lia ]
     | lia
     | try done; lia ]).
Qed.

Lemma main_step_Sized (st st' : state) :
  Sized st → main_step st = Some st' → Sized st'.
Proof.
  intros [Ht Hs Hm] H. destruct st as [m ts w c b ss].
  unfold main_step in H; simpl in *.
  destruct m as [[|key ks]| |]; simpl in H.
  - simplify_eq. by split.
  - destruct (decide (target ≤ length ss)%nat); simplify_eq; [by split|].
    split; cbn [st_tasks st_stories st_main]; rewrite ?count_snoc;
      cbn [finishing at_ Nat.b2n]; rewrite ?Nat.add_0_r; [|done..].
    apply Forall_app. split; [done|]. by constructor.
  - destruct (decide (w = 0)); simplify_eq. by split.
  - done.
Qed.

Lemma run_Sized (W : World) (sched : list actor) (st st' : state) :
  Sized st → run W sched st = Some st' → Sized st'.
Proof.
  revert st. induction sched as [|a sched IH]; intros st HS H; simpl in H.
  - by simplify_eq.
  - destruct (exec W a st) as [st1|] eqn:E; [|done].
    apply (IH st1); [|done]. destruct a as [|i]; simpl in E.
    + by eapply main_step_Sized.
    + by eapply task_step_Sized.
Qed.

(** ** What every schedule guarantees *)

Lemma getStories_from_upstream (W : World) (sched : list actor)
    (res : Response) (ss : stories) :
  getStories W sched res = Some (ss, None) →
  Forall (from_upstream W (keys_of W res)) ss.
Proof.
  unfold getStories, keys_of. intros H.
  destruct (body_err res); [done|].
  destruct (run W sched _) as [st|] eqn:Hrun; [|done].
  destruct (st_main st) as [| |r] eqn:Hm; simplify_eq.
  pose proof (run_Prov W _ sched _ st (in_order_init _ _) (Prov_init W _ _) Hrun)
    as [_ _ Hmain].
  by rewrite Hm in Hmain.
Qed.

Lemma from_upstream_eligible (W : World) (keys : list Z) (s : story) :
  from_upstream W keys s → eligible s = true.
Proof.
  intros (k & r & s0 & _ & _ & _ & Hfe).
  by destruct (filter_enrich_Some W s0 s Hfe) as (? & _).
Qed.

(** Whatever the interleaving, each story [getStories] returns was made by
    lines 128-140 from the body of an item answer for one of the keys of
    the list; it is eligible and carries its relative age. *)
Theorem returned_stories_come_from_upstream (W : World) (sched : list actor)
    (res : Response) (ss : stories) :
  getStories W sched res = Some (ss, None) →
  Forall (λ s, from_upstream W (keys_of W res) s ∧ eligible s = true ∧
               HumanTime s = humanize_Time W (Time s)) ss.
Proof.
  intros H. eapply Forall_impl; [exact (getStories_from_upstream W sched res ss H)|].
  intros s Hs. split; [done|].
  destruct Hs as (k & r & s0 & _ & _ & _ & Hfe).
  by destruct (filter_enrich_Some W s0 s Hfe) as (? & ? & _).
Qed.

Lemma returned_stories_come_from_upstream_witness :
  ∃ ss, getStories world2 sched_shared_body (answer "[1,2]") = Some (ss, None) ∧
        Forall (λ s, from_upstream world2 (keys_of world2 (answer "[1,2]")) s ∧
                     eligible s = true ∧
                     HumanTime s = humanize_Time world2 (Time s)) ss.
Proof.
  eexists. split; [vm_compute; reflexivity|].
  apply (returned_stories_come_from_upstream world2 sched_shared_body).
  vm_compute. reflexivity.
Defined.

(** Whatever the interleaving, [getStories] returns at most one story per
    key of the list, so none for a list without keys. *)
Theorem never_more_stories_than_keys (W : World) (sched : list actor)
    (res : Response) (ss : stories) (err : option error) :
  getStories W sched res = Some (ss, err) →
  (length ss ≤ length (keys_of W res))%nat ∧ (keys_of W res = [] → ss = []).
Proof.
  intros H.
  assert (Hlen : (length ss ≤ length (keys_of W res))%nat).
  { unfold getStories, keys_of in *.
    destruct (body_err res); [simplify_eq; simpl; lia|].
    destruct (run W sched _) as [st|] eqn:Hrun; [|done].
    destruct (st_main st) as [| |r] eqn:Hm; simplify_eq.
    pose proof (run_Sized W sched _ st (Sized_init _ _) Hrun) as [_ _ Hmain].
    rewrite Hm in Hmain.
    destruct (run_in_order W _ sched _ st (in_order_init _ _) Hrun)
      as (rest & Hk & _).
    pose proof (count_le_length finishing (st_tasks st)).
    apply (f_equal length) in Hk. rewrite length_app, length_fmap in Hk. lia. }
  split; [done|]. intros Hnil. rewrite Hnil in Hlen.
  destruct ss; [done|simpl in Hlen; lia].
Qed.

Lemma never_more_stories_than_keys_witness :
  ∃ ss, getStories world31 sched_overshoot (answer "[1..31]") = Some (ss, None) ∧
        (length ss ≤ length (keys_of world31 (answer "[1..31]")))%nat.
Proof.
  eexists. split; [vm_compute; reflexivity|].
  apply (never_more_stories_than_keys world31 sched_overshoot (answer "[1..31]") _ None).
  vm_compute. reflexivity.
Defined.

(** The goroutines are started one per key, in the order of the list, with
    no key skipped: at any moment their keys are an initial segment of the
    list and the loop is at the key that follows. *)
Theorem goroutines_start_in_key_order (W : World) (data : string) (keys : list Z)
    (sched : list actor) (st : state) :
  run W sched (init data keys) = Some st →
  storyKey <$> st_tasks st = take (length (st_tasks st)) keys ∧
  ∀ ks, st_main st = OLoop ks → ks = drop (length (st_tasks st)) keys.
Proof.
  intros Hrun.
  destruct (run_in_order W keys sched _ st (in_order_init _ _) Hrun)
    as (rest & Hk & Hrest).
  assert (Hlen : length (st_tasks st) = length (storyKey <$> st_tasks st))
    by (by rewrite length_fmap).
  rewrite Hlen, Hk. split.
  - by rewrite take_app_length.
  - intros ks Hm. rewrite Hm in Hrest. subst rest. by rewrite drop_app_length.
Qed.

Lemma goroutines_start_in_key_order_witness :
  ∃ st, run world12 sched_ten_in_flight (init "[1..12]" keys12) = Some st ∧
        storyKey <$> st_tasks st = take (length (st_tasks st)) keys12.
Proof.
  eexists. split; [vm_compute; reflexivity|].
  apply (goroutines_start_in_key_order world12 "[1..12]" keys12 sched_ten_in_flight).
  vm_compute. reflexivity.
Defined.

Lemma count_zero (f : task → bool) (ts : list task) :
  count f ts = 0%nat → Forall (λ t, f t = false) ts.
Proof.
  unfold count. induction ts as [|t ts IH]; csimpl; intros H; [constructor|].
  constructor; [destruct (f t); [simpl in H; lia|done]|]. apply IH. lia.
Qed.

(** The counter of the wait group is the number of goroutines between
    [wg.Add(1)] and [wg.Done()], so [wg.Done()] never makes it negative;
    when [wg.Wait()] lets the function return, no goroutine is between
    the two and the stories returned are those appended so far; and the
    receive of line 112 never blocks. *)
Theorem wait_group_counts_running_goroutines (W : World) (data : string)
    (keys : list Z) (sched : list actor) (st : state) :
  run W sched (init data keys) = Some st →
  st_wg st = Z.of_nat (length (filter (λ t, registered t = true) (st_tasks st))) ∧
  (∀ i k, st_tasks st !! i = Some (Task k PDone) → 1 ≤ st_wg st) ∧
  (∀ st', st_main st = OWait → main_step st = Some st' →
     st_main st' = OReturned (st_stories st) ∧
     Forall (λ t, registered t = false) (st_tasks st)) ∧
  (∀ i k, st_tasks st !! i = Some (Task k PRelease) → is_Some (task_step W i st)).
Proof.
  intros Hrun.
  destruct (run_Inv W sched _ st (Inv_init data keys) Hrun) as [Hs Hc Hw].
  rewrite <- count_filter. split; [done|]. split; [|split].
  - intros i k Hi.
    pose proof (sum_lookup_le (λ t, Nat.b2n (registered t)) _ i _ Hi) as Hle.
    fold (count registered (st_tasks st)) in Hle. simpl in Hle. lia.
  - intros st' Hm Hstep. destruct st as [m ts w c b ss]; simpl in *. subst m.
    simpl in Hstep. destruct (decide (w = 0)); simplify_eq. split; [done|].
    apply count_zero. lia.
  - intros i k Hi.
    pose proof (sum_lookup_le (λ t, Nat.b2n (holding t)) _ i _ Hi) as Hle.
    fold (count holding (st_tasks st)) in Hle. simpl in Hle.
    destruct st as [m ts w c b ss]; simpl in *.
    unfold task_step; simpl. rewrite Hi.
    destruct c; [lia|]. by eexists.
Qed.

Lemma wait_group_counts_running_goroutines_witness :
  ∃ st, run world12 sched_ten_in_flight (init "[1..12]" keys12) = Some st ∧
        st_wg st = 12 ∧
        st_wg st = Z.of_nat (length (filter (λ t, registered t = true) (st_tasks st))).
Proof.
  eexists. split; [vm_compute; reflexivity|]. split; [vm_compute; reflexivity|].
  apply (wait_group_counts_running_goroutines world12 "[1..12]" keys12
           sched_ten_in_flight).
  vm_compute. reflexivity.
Defined.

(** ** The result without interleaving *)

(** For every list answer there is a schedule under which [getStories]
    returns, in the order of the keys, the first thirty of the stories
    that lines 116-140 make of the items, all of them when they are fewer. *)
Theorem some_schedule_returns_first_thirty (W : World) (res : Response) :
  body_err res = None →
  ∃ sched,
    getStories W sched res
    = Some (take 30 (omap (fetch_item W) (keys_of W res)), None).
Proof.
  intros Hres. destruct (sequential_run W res Hres) as [sched Hrun].
  exists sched. rewrite Hrun, collect_take. reflexivity.
Qed.

Lemma some_schedule_returns_first_thirty_witness :
  ∃ sched,
    getStories world_mixed sched (answer "[1,2,3]")
    = Some (take 30 (omap (fetch_item world_mixed)
                       (keys_of world_mixed (answer "[1,2,3]"))), None).
Proof.
  apply (some_schedule_returns_first_thirty world_mixed (answer "[1,2,3]")).
  reflexivity.
Defined.

(** ** The handler and its cache *)

Lemma pageHandler_hit (W : World) (sched : list actor) (pageType : string)
    (t_get t_set : Z) (cash : cache.Cache) (s : stories) :
  cache.Get cash pageType t_get = Some s →
  pageHandler W sched pageType t_get t_set cash
  = Some (cash, if template_ok W then page200 pageType s
                else page500 "could not parse template file").
Proof. unfold pageHandler. intros ->. by destruct (template_ok W). Qed.

Lemma pageHandler_miss (W : World) (sched : list actor) (pageType : string)
    (t_get t_set : Z) (cash : cache.Cache) (s : stories) :
  cache.Get cash pageType t_get = None →
  getStoriesFromType W sched pageType = Some (s, None) →
  pageHandler W sched pageType t_get t_set cash
  = Some (cache.Set_ cash pageType s t_set,
          if template_ok W then page200 pageType s
          else page500 "could not parse template file").
Proof. unfold pageHandler. intros -> ->. by destruct (template_ok W). Qed.

Lemma Get_after_hit (ops : list cache_op) (c : cache.Cache) (p : string)
    (t : Z) (s : stories) :
  Forall (λ op, leaves_page p op ∧ not_after t op) ops →
  cache.Get c p t = Some s → cache.Get (cache_after c ops) p t = Some s.
Proof.
  revert c. induction ops as [|op ops IH]; intros c Hops Hget; [done|].
  apply Forall_cons in Hops as [[Hp Ht] Hops]. apply IH; [done|].
  destruct op as [now|k x now]; simpl in *.
  - unfold cache.Get, cache.DeleteExpired in *; simpl.
    destruct (cache.items c !! p) as [it|] eqn:Hit; [|done].
    destruct (cache.Expired t it) eqn:Hexp; [done|].
    rewrite (map_lookup_filter_Some_2 _ _ p it Hit); [by rewrite Hexp|].
    unfold cache.Expired in *. simpl. apply Z.ltb_ge. apply Z.ltb_ge in Hexp. lia.
  - unfold cache.Get, cache.Set_ in *; simpl. by rewrite lookup_insert_ne.
Qed.

Lemma Get_after_miss (ops : list cache_op) (c : cache.Cache) (p : string) (t : Z) :
  Forall (leaves_page p) ops →
  cache.Get c p t = None → cache.Get (cache_after c ops) p t = None.
Proof.
  revert c. induction ops as [|op ops IH]; intros c Hops Hget; [done|].
  apply Forall_cons in Hops as [Hp Hops]. apply IH; [done|].
  destruct op as [now|k x now]; simpl in *.
  - destruct (cache.Get (cache.DeleteExpired c now) p t) as [x|] eqn:E; [|done].
    apply cache_facts.Get_DeleteExpired in E. congruence.
  - unfold cache.Get, cache.Set_ in *; simpl. by rewrite lookup_insert_ne.
Qed.

Lemma cache_after_ttl (ops : list cache_op) (c : cache.Cache) :
  cache.defaultExpiration (cache_after c ops) = cache.defaultExpiration c.
Proof.
  revert c. induction ops as [|op ops IH]; intros c; [done|].
  simpl. rewrite IH. by destruct op.
Qed.

(** After a request that missed the cache and stored the stories [s], and
    as long as no request has written the entry of the same page since,
    every request for that page made up to the time-to-live after the
    write is served [s] from the cache, whatever sweeps ran and whatever
    was written for other pages in between: the answer does not depend on
    the upstream or on any schedule, and the cache stays as it is.  When
    the entry of the page was written again in between, it is the stories
    written last that are served. *)
Theorem second_request_is_served_from_cache (W W' : World) (sched sched' : list actor)
    (pageType : string) (t1 t2 t3 t4 : Z) (cash : cache.Cache) (s : stories)
    (ops : list cache_op) :
  cache.Get cash pageType t1 = None →
  getStoriesFromType W sched pageType = Some (s, None) →
  t3 ≤ t2 + cache.defaultExpiration cash →
  Forall (λ op, leaves_page pageType op ∧ not_after t3 op) ops →
  ∃ cash' calls,
    pageHandler W sched pageType t1 t2 cash = Some (cash', calls) ∧
    pageHandler W' sched' pageType t3 t4 (cache_after cash' ops)
    = Some (cache_after cash' ops,
            if template_ok W' then page200 pageType s
            else page500 "could not parse template file") ∧
    ∀ s2 t ops2, t3 ≤ t + cache.defaultExpiration cash →
      Forall (λ op, leaves_page pageType op ∧ not_after t3 op) ops2 →
      pageHandler W' sched' pageType t3 t4
        (cache_after (cache.Set_ (cache_after cash' ops) pageType s2 t) ops2)
      = Some (cache_after (cache.Set_ (cache_after cash' ops) pageType s2 t) ops2,
              if template_ok W' then page200 pageType s2
              else page500 "could not parse template file").
Proof.
  intros Hmiss Hget Ht Hops. eexists _, _. split; [by apply pageHandler_miss|].
  split.
  - apply pageHandler_hit, Get_after_hit; [done|].
    rewrite cache_facts.Get_Set_eq.
    destruct (Z.ltb_spec (t2 + cache.defaultExpiration cash) t3); [lia|done].
  - intros s2 t ops2 Ht2 Hops2. apply pageHandler_hit, Get_after_hit; [done|].
    rewrite cache_facts.Get_Set_eq, cache_after_ttl. simpl.
    destruct (Z.ltb_spec (t + cache.defaultExpiration cash) t3); [lia|done].
Qed.

Lemma second_request_is_served_from_cache_witness :
  ∃ cash' calls,
    pageHandler world2 (sched_sequential 2) "new" 0 5 cash_init = Some (cash', calls) ∧
    pageHandler world_down [] "new" 1800000000005 1800000000006
      (cache_after cash' [OpSweep 600000000000; OpSet "top" [] 700000000000;
                          OpSweep 1200000000000; OpSweep 1800000000000])
    = Some (cache_after cash' [OpSweep 600000000000; OpSet "top" [] 700000000000;
                               OpSweep 1200000000000; OpSweep 1800000000000],
            page200 "new"
              (default [] (fst <$> getStoriesFromType world2 (sched_sequential 2) "new"))).
Proof.
  destruct (second_request_is_served_from_cache world2 world_down
              (sched_sequential 2) [] "new" 0 5 1800000000005 1800000000006 cash_init
              (default [] (fst <$> getStoriesFromType world2 (sched_sequential 2) "new"))
              [OpSweep 600000000000; OpSet "top" [] 700000000000;
               OpSweep 1200000000000; OpSweep 1800000000000])
    as (cash' & calls & H1 & H2 & _).
  - by vm_compute.
  - by vm_compute.
  - by vm_compute.
  - repeat constructor; simpl; try discriminate; lia.
  - by exists cash', calls.
Defined.

(** After a request that missed the cache and stored stories, and as long
    as no request has written the entry of the same page since, a request
    for that page made later than the time-to-live after the write misses
    the cache, whatever sweeps ran and whatever was written for other pages
    in between, and does what a request on a cache without that entry
    does: it asks the upstream again, answers 500 and leaves the cache
    alone when that fails, and stores and renders the new stories
    otherwise. *)
Theorem stale_entry_is_not_served (W W' : World) (sched sched' : list actor)
    (pageType : string) (t1 t2 t3 t4 : Z) (cash : cache.Cache) (s : stories)
    (ops : list cache_op) :
  cache.Get cash pageType t1 = None →
  getStoriesFromType W sched pageType = Some (s, None) →
  t2 + cache.defaultExpiration cash < t3 →
  Forall (leaves_page pageType) ops →
  ∃ cash' calls,
    pageHandler W sched pageType t1 t2 cash = Some (cash', calls) ∧
    cache.Get (cache_after cash' ops) pageType t3 = None ∧
    pageHandler W' sched' pageType t3 t4 (cache_after cash' ops)
    = after_miss W' pageType t4 (cache_after cash' ops)
        (getStoriesFromType W' sched' pageType).
Proof.
  intros Hmiss Hget Ht Hops. eexists _, _. split; [by apply pageHandler_miss|].
  assert (Hstale : cache.Get (cache_after (cache.Set_ cash pageType s t2) ops)
                     pageType t3 = None).
  { apply Get_after_miss; [done|]. rewrite cache_facts.Get_Set_eq.
    destruct (Z.ltb_spec (t2 + cache.defaultExpiration cash) t3); [done|lia]. }
  split; [done|]. unfold pageHandler, after_miss. rewrite Hstale.
  destruct (getStoriesFromType W' sched' pageType) as [[s' [e|]]|]; try done.
  by destruct (template_ok W').
Qed.

Lemma stale_entry_is_not_served_witness :
  ∃ cash' calls,
    pageHandler world2 (sched_sequential 2) "new" 0 5 cash_init = Some (cash', calls) ∧
    pageHandler world_mixed sched_mixed "new" 1800000000006 1800000000007
      (cache_after cash' [OpSet "top" [] 700000000000; OpSweep 1800000000000])
    = after_miss world_mixed "new" 1800000000007
        (cache_after cash' [OpSet "top" [] 700000000000; OpSweep 1800000000000])
        (getStoriesFromType world_mixed sched_mixed "new").
Proof.
  destruct (stale_entry_is_not_served world2 world_mixed
              (sched_sequential 2) sched_mixed "new" 0 5 1800000000006 1800000000007
              cash_init
              (default [] (fst <$> getStoriesFromType world2 (sched_sequential 2) "new"))
              [OpSet "top" [] 700000000000; OpSweep 1800000000000])
    as (cash' & calls & H1 & _ & H3).
  - by vm_compute.
  - by vm_compute.
  - by vm_compute.
  - repeat constructor; simpl; discriminate.
  - by exists cash', calls.
Defined.

(** Whatever a request does, the first call on the writer is
    [WriteHeader], with 200 or 500, and it is the only one; the
    content-type header is set only after the status 200 was written; the
    cache is either left as it is or gets the one entry of the page
    asked for, and this only after a miss; entries of other pages are
    never touched. *)
Theorem pageHandler_answers (W : World) (sched : list actor) (pageType : string)
    (t_get t_set : Z) (cash cash' : cache.Cache) (calls : list rw_call) :
  pageHandler W sched pageType t_get t_set cash = Some (cash', calls) →
  ((∃ s, calls = page200 pageType s ∧ template_ok W = true) ∨
   (∃ msg, calls = page500 msg)) ∧
  (cash' = cash ∨
   ∃ s, cache.Get cash pageType t_get = None ∧
        cash' = cache.Set_ cash pageType s t_set) ∧
  (∀ q, q ≠ pageType → cache.items cash' !! q = cache.items cash !! q) ∧
  cache.defaultExpiration cash' = cache.defaultExpiration cash.
Proof.
  unfold pageHandler, getStoriesFromType. intros H.
  destruct (cache.Get cash pageType t_get) as [s|] eqn:Hget.
  - destruct (template_ok W) eqn:Ht; simplify_eq;
      (split; [|by auto]); [left|right]; eauto.
  - assert (Hset : ∀ s q, q ≠ pageType →
              cache.items (cache.Set_ cash pageType s t_set) !! q
              = cache.items cash !! q).
    { intros s q Hq. simpl. by rewrite lookup_insert_ne. }
    repeat case_match; simplify_eq;
      (split; [first [left; by eauto | right; by eauto]|]);
      (split; [first [by left | right; by eauto]|]);
      split; auto.
Qed.

Lemma pageHandler_answers_witness :
  ∃ cash' calls,
    pageHandler world2 (sched_sequential 2) "show" 0 5 cash_init = Some (cash', calls) ∧
    status_of calls = Some 200 ∧
    ∀ q, q ≠ "show" → cache.items cash' !! q = cache.items cash_init !! q.
Proof.
  eexists _, _. split; [vm_compute; reflexivity|]. split; [reflexivity|].
  refine (proj1 (proj2 (proj2 (pageHandler_answers world2 (sched_sequential 2)
                                 "show" 0 5 cash_init _ _ _)))).
  vm_compute. reflexivity.
Defined.

(** The cache is written before the template is parsed: when the
    template does not parse, a request that missed the cache answers 500
    and has stored the stories all the same, so that the next request
    finds them. *)
Theorem template_failure_still_fills_cache (W : World) (sched : list actor)
    (pageType : string) (t_get t_set : Z) (cash : cache.Cache) (s : stories) :
  template_ok W = false →
  cache.Get cash pageType t_get = None →
  getStoriesFromType W sched pageType = Some (s, None) →
  0 ≤ cache.defaultExpiration cash →
  ∃ cash',
    pageHandler W sched pageType t_get t_set cash
    = Some (cash', page500 "could not parse template file") ∧
    cache.Get cash' pageType t_set = Some s.
Proof.
  intros Ht Hmiss Hget Httl. eexists. split.
  - rewrite (pageHandler_miss W sched pageType t_get t_set cash s Hmiss Hget).
    by rewrite Ht.
  - rewrite cache_facts.Get_Set_eq.
    destruct (Z.ltb_spec (t_set + cache.defaultExpiration cash) t_set); [lia|done].
Qed.

Lemma template_failure_still_fills_cache_witness :
  ∃ cash',
    pageHandler world2_no_template (sched_sequential 2) "top" 0 5 cash_init
    = Some (cash', page500 "could not parse template file") ∧
    cache.Get cash' "top" 5
    = Some (default [] (fst <$> getStoriesFromType world2_no_template
                                  (sched_sequential 2) "top")).
Proof.
  apply (template_failure_still_fills_cache world2_no_template (sched_sequential 2)
           "top" 0 5 cash_init); by vm_compute.
Defined.

(** When every story in the cache is eligible, the same holds after any
    request, whatever the interleaving of the goroutines, and a page that
    is rendered shows eligible stories only. *)
Theorem cache_holds_eligible_stories_only (W : World) (sched : list actor)
    (pageType : string) (t_get t_set : Z) (cash cash' : cache.Cache)
    (calls : list rw_call) :
  cache_eligible cash →
  pageHandler W sched pageType t_get t_set cash = Some (cash', calls) →
  cache_eligible cash' ∧
  ∀ s, calls = page200 pageType s → Forall (λ x, eligible x = true) s.
Proof.
  intros Hel H.
  assert (Hhit : ∀ s, cache.Get cash pageType t_get = Some s →
            Forall (λ x, eligible x = true) s).
  { unfold cache.Get. intros s Hs.
    destruct (cache.items cash !! pageType) as [it|] eqn:Hit; [|done].
    destruct (cache.Expired t_get it); simplify_eq. by eapply Hel. }
  assert (Hmiss : ∀ s, getStoriesFromType W sched pageType = Some (s, None) →
            Forall (λ x, eligible x = true) s).
  { unfold getStoriesFromType. intros s Hs.
    destruct (http_Get W (listURL pageType)) as [res|]; [|done].
    destruct (getStories W sched res) as [[ss [e|]]|] eqn:Hg; simplify_eq.
    eapply Forall_impl; [exact (getStories_from_upstream W sched res s Hg)|].
    intros x. apply from_upstream_eligible. }
  unfold pageHandler in H.
  destruct (cache.Get cash pageType t_get) as [s|] eqn:Hget.
  - specialize (Hhit s eq_refl).
    destruct (template_ok W); simplify_eq; (split; [done|]);
      intros s' Hs'; unfold page200, page500 in *; by simplify_eq.
  - destruct (getStoriesFromType W sched pageType) as [[s [e|]]|] eqn:Hg;
      simplify_eq.
    + split; [done|]. intros s' Hs'. unfold page200 in Hs'. by simplify_eq.
    + specialize (Hmiss s eq_refl).
      assert (cache_eligible (cache.Set_ cash pageType s t_set)).
      { intros k it. simpl. rewrite lookup_insert.
        case_decide; intros; simplify_eq; [done|by eapply Hel]. }
      destruct (template_ok W); simplify_eq; (split; [done|]);
        intros s' Hs'; unfold page200, page500 in *; by simplify_eq.
Qed.

Lemma cache_holds_eligible_stories_only_witness :
  ∃ cash' calls,
    pageHandler world_mixed sched_mixed "best" 0 5 cash_init = Some (cash', calls) ∧
    cache_eligible cash'.
Proof.
  eexists _, _. split; [vm_compute; reflexivity|].
  refine (proj1 (cache_holds_eligible_stories_only world_mixed sched_mixed
                   "best" 0 5 cash_init _ _ _ _)).
  - intros k it Hk. unfold cash_init, cache.New in Hk. simpl in Hk.
    by rewrite lookup_empty in Hk.
  - vm_compute. reflexivity.
Defined.

(** ** More on the filter *)

Lemma eligible_substring (s : story) :
  eligible s = true →
  (∃ pre post, URL s = pre +:+ "github" +:+ post) ∨
  (∃ pre post, URL s = pre +:+ "gitlab" +:+ post).
Proof.
  unfold eligible. rewrite orb_true_iff, !strings_facts.Contains_spec. done.
Qed.

(** The filter lets a story through exactly when it is eligible; what it
    lets through has the nine fields of the API answer unchanged, the
    relative age of its time, and as host name that of its link, or the
    decoded one when the link does not parse. *)
Theorem enrichment_keeps_api_fields (W : World) (s0 : story) :
  (filter_enrich W s0 = None ↔ eligible s0 = false) ∧
  ∀ s, filter_enrich W s0 = Some s →
    (By s, Descendants s, ID s, Kids s, Score s, Time s, Title s, Type_ s, URL s)
    = (By s0, Descendants s0, ID s0, Kids s0, Score s0, Time s0, Title s0,
       Type_ s0, URL s0) ∧
    HumanTime s = humanize_Time W (Time s0) ∧
    DomainName s = default (DomainName s0) (url_Hostname W (URL s0)).
Proof.
  unfold filter_enrich. destruct (eligible s0); simpl.
  - split; [by destruct (url_Hostname W (URL s0))|].
    intros s. by destruct (url_Hostname W (URL s0)); intros [= <-].
  - by split.
Qed.

(** A story without a link, or with a link of fewer than six bytes, is
    never eligible, and neither is one whose link spells the host in
    capitals. *)
Theorem short_links_are_not_eligible (s : story) :
  ((String.length (URL s) < 6)%nat → eligible s = false) ∧
  (URL s = "https://GitHub.com/x/y" → eligible s = false).
Proof.
  split.
  - intros Hlen. destruct (eligible s) eqn:Hel; [|done].
    apply eligible_substring in Hel as [(pre & post & H)|(pre & post & H)];
      rewrite H, !length_append in Hlen; simpl in Hlen; lia.
  - intros H. unfold eligible. by rewrite H.
Qed.

(** ** Length of a run *)

Lemma run_measure (W : World) (sched : list actor) (st st' : state) :
  Inv st → run W sched st = Some st' →
  (length sched + measure st' ≤ measure st)%nat.
Proof.
  revert st. induction sched as [|a sched IH]; intros st HI H; simpl in H.
  - simplify_eq. simpl. lia.
  - destruct (exec W a st) as [st1|] eqn:E; [|done].
    destruct (exec_Inv W a st st1 HI E) as [HI1 Hlt].
    specialize (IH st1 HI1 H). simpl. lia.
Qed.

(** No interleaving goes on for ever: once the list body is read, the
    main goroutine and the item goroutines together execute at most ten
    statements per key and two more. *)
Theorem runs_are_bounded (W : World) (data : string) (keys : list Z)
    (sched : list actor) (st : state) :
  run W sched (init data keys) = Some st →
  (length sched ≤ 2 + 10 * length keys)%nat.
Proof.
  intros Hrun.
  pose proof (run_measure W sched _ st (Inv_init data keys) Hrun) as H.
  unfold measure at 2 in H. simpl in H. unfold ranks in H. simpl in H. lia.
Qed.

Lemma runs_are_bounded_witness :
  (length sched_overshoot ≤ 2 + 10 * length keys31)%nat.
Proof.
  refine (runs_are_bounded world31 "[1..31]" keys31 sched_overshoot _ _).
  vm_compute. reflexivity.
Defined.

Lemma pageHandler_list_unavailable_witness :
  pageHandler world_down sched_overshoot "show" 0 5 cash_init
  = Some (cash_init, [WriteHeader 500;
                      Write "could not get show hacker news posts list"]).
Proof.
  refine (proj1 (pageHandler_list_unavailable world_down sched_overshoot
                   "show" 0 5 cash_init _) _).
  - by vm_compute.
  - reflexivity.
Defined.
